(** * The Interledger engine of [sofie_asset_transfer/interledger.py]

    A shallow embedding of the classes [State], [Transfer], [Interledger]
    and [StateInterledger], followed by the properties of the four stage
    operations ([receive_transfer], [send_transfer], [transfer_result],
    [process_result]) and of the state-aware constructor.

    Python objects are shared: the same [Transfer] object is referenced from
    [self.transfers] and from [self.transfers_sent], and a stage mutates it
    through either list.  The embedding therefore keeps an object store
    ([heap]) and lets both lists hold addresses into it. *)

From stdpp Require Import gmap strings list fin_maps fin_sets.

Open Scope Z_scope.

(** ** Python values, exceptions, futures *)

(** The Python values that flow through [Transfer.result] and through the
    asset identifiers. *)
Inductive value :=
  | VNone
  | VBool (b : bool)
  | VInt (z : Z)
  | VStr (s : string).

Global Instance value_eq_dec : EqDecision value.
Proof. solve_decision. Defined.

Global Instance value_countable : Countable value.
Proof.
  refine (inj_countable'
    (λ v, match v with
          | VNone => inl (inl ())
          | VBool b => inl (inr b)
          | VInt z => inr (inl z)
          | VStr s => inr (inr s)
          end)
    (λ x, match x with
          | inl (inl _) => VNone
          | inl (inr b) => VBool b
          | inr (inl z) => VInt z
          | inr (inr s) => VStr s
          end) _).
  by intros [].
Defined.

(** Truth value of a Python object, as tested by [if t.result:]. *)
Definition truthy (v : value) : bool :=
  match v with
  | VNone => false
  | VBool b => b
  | VInt z => negb (z =? 0)
  | VStr s => negb (String.eqb s "")
  end.

(** The exceptions of a run.  [NotAwaitable] stands for whatever
    [asyncio.wait] raises when an element of its argument is no future:
    CPython up to 3.10 raises [TypeError] (from [ensure_future]), CPython
    from 3.11 on raises [AttributeError] (from [add_done_callback]).  The
    code fixes no interpreter, so the class is left open. *)
Inductive exn :=
  | ValueError
  | TypeError
  | AttributeError
  | NotAwaitable
  | CancelledError
  | AdapterError (msg : string).

Global Instance exn_eq_dec : EqDecision exn.
Proof. solve_decision. Defined.

(** An [asyncio] future is pending, holds a result, or holds an exception
    (a cancelled future holds [CancelledError]). *)
Inductive fut_state :=
  | FPending
  | FDone (v : value)
  | FFailed (e : exn).

Global Instance fut_state_eq_dec : EqDecision fut_state.
Proof. solve_decision. Defined.

Global Instance fut_state_inhabited : Inhabited fut_state := populate FPending.

(** [Future.done()] *)
Definition done (s : fut_state) : bool :=
  match s with
  | FPending => false
  | _ => true
  end.

(** ** [class State(Enum)] *)
Inductive State := READY | SENT | COMPLETED | PROCESSED.

Global Instance State_eq_dec : EqDecision State.
Proof. solve_decision. Defined.

(** ** [class Transfer] *)

Abbreviation addr := nat (only parsing).
Abbreviation fid := nat (only parsing).

Record Transfer := mkTransfer {
  future : option fid;
  result : value;
  state : State;
  data : option (gmap string value);
}.

(** [Transfer.__init__] *)
Definition Transfer_init : Transfer :=
  {| future := None; result := VNone; state := READY; data := None |}.

Global Instance Transfer_inhabited : Inhabited Transfer := populate Transfer_init.

Definition set_state (s : State) (t : Transfer) : Transfer :=
  {| future := future t; result := result t; state := s; data := data t |}.
Definition set_future (f : option fid) (t : Transfer) : Transfer :=
  {| future := f; result := result t; state := state t; data := data t |}.
Definition set_result (v : value) (t : Transfer) : Transfer :=
  {| future := future t; result := v; state := state t; data := data t |}.
Definition set_data (d : option (gmap string value)) (t : Transfer) : Transfer :=
  {| future := future t; result := result t; state := state t; data := d |}.

(** [t.data["assetId"]] *)
Definition assetId (t : Transfer) : option value :=
  d ← data t; d !! "assetId"%string.

(** ** [class Interledger] *)

(** Calls the engine issues on its two adapters. *)
Inductive request :=
  | ReqReceive (a : addr) (f : fid)   (* responder.receive_transfer(t), wrapped in future f *)
  | ReqCommit (a : addr)              (* initiator.commit_transfer(t) *)
  | ReqAbort (a : addr).              (* initiator.abort_transfer(t) *)

Global Instance request_eq_dec : EqDecision request.
Proof. solve_decision. Defined.

(** The fields of [Interledger], together with the three pieces of the
    environment its methods read or write: the object store holding the
    [Transfer] objects, the event loop's futures, and the log of the calls
    scheduled on the adapters. *)
Record Interledger := mkInterledger {
  heap : gmap addr Transfer;
  futs : gmap fid fut_state;
  requests : list request;
  transfers : list addr;
  transfers_sent : list addr;
  pending : Z;
  keep_running : bool;
  results_abort : list value;
  results_commit : list value;
}.

(** The object at an address. *)
Definition obj (w : Interledger) (a : addr) : Transfer := heap w !!! a.

(** The state of a future. *)
Definition fut (w : Interledger) (f : fid) : fut_state := futs w !!! f.

(** [Interledger.__init__], in an ambient object store and event loop. *)
Definition Interledger_init (h : gmap addr Transfer) (fs : gmap fid fut_state)
    : Interledger :=
  {| heap := h; futs := fs; requests := [];
     transfers := []; transfers_sent := []; pending := 0; keep_running := true;
     results_abort := []; results_commit := [] |}.

(** [Interledger.stop] *)
Definition stop (w : Interledger) : Interledger :=
  {| heap := heap w; futs := futs w; requests := requests w;
     transfers := transfers w; transfers_sent := transfers_sent w;
     pending := pending w; keep_running := false;
     results_abort := results_abort w; results_commit := results_commit w |}.

(** How a coroutine of the engine ends: it returns, it raises, or it is
    still suspended at its [await].  An exception leaves the mutations made
    before it in place, so [Raised] carries the engine it leaves behind. *)
Inductive outcome (A : Type) :=
  | Returned (v : A) (w : Interledger)
  | Raised (e : exn) (w : Interledger)
  | Blocked.
Arguments Returned {A} v w.
Arguments Raised {A} e w.
Arguments Blocked {A}.

(** *** [receive_transfer] *)

(** What [await self.initiator.get_transfers()] produces. *)
Inductive poll_result :=
  | PollRaise (e : exn)
  | PollDeliver (ts : list addr).

Definition extend_transfers (ts : list addr) (w : Interledger) : Interledger :=
  {| heap := heap w; futs := futs w; requests := requests w;
     transfers := transfers w ++ ts; transfers_sent := transfers_sent w;
     pending := pending w; keep_running := keep_running w;
     results_abort := results_abort w; results_commit := results_commit w |}.

Definition receive_transfer (p : poll_result) (w : Interledger) : outcome nat :=
  match p with
  | PollRaise e => Raised e w
  | PollDeliver ts =>
      let w' := if bool_decide (0 < length ts)%nat then extend_transfers ts w else w in
      Returned (length ts) w'
  end.

(** *** [send_transfer] *)

(** The body of the loop for one [t] that is [READY]. *)
Definition dispatch (a : addr) (w : Interledger) : Interledger :=
  let f := fresh (dom (futs w)) in
  {| heap := <[a := set_future (Some f) (set_state SENT (obj w a))]> (heap w);
     futs := <[f := FPending]> (futs w);
     requests := requests w ++ [ReqReceive a f];
     transfers := transfers w;
     transfers_sent := transfers_sent w ++ [a];
     pending := pending w + 1;
     keep_running := keep_running w;
     results_abort := results_abort w; results_commit := results_commit w |}.

Definition send_step (w : Interledger) (a : addr) : Interledger :=
  if decide (state (obj w a) = READY) then dispatch a w else w.

Definition send_transfer (w : Interledger) : Interledger :=
  foldl send_step w (transfers w).

(** *** [transfer_result] *)

(** [futures = [t.future for t in self.transfers_sent]] *)
Definition futures (w : Interledger) : list (option fid) :=
  (λ a, future (obj w a)) <$> transfers_sent w.

Definition handle_done (w : Interledger) (o : option fid) : bool :=
  match o with
  | Some f => done (fut w f)
  | None => false
  end.

(** [await asyncio.wait(futures, return_when=FIRST_COMPLETED)]: an empty
    list is refused with [ValueError], an element that is no future
    ([None]) with the exception [NotAwaitable] stands for; otherwise the
    wait is over as soon as one of the futures is done. *)
Inductive wait_result := WaitRaise (e : exn) | WaitBlocked | WaitReady.

Definition wait_first_completed (w : Interledger) (fs : list (option fid))
    : wait_result :=
  match fs with
  | [] => WaitRaise ValueError
  | _ =>
      if bool_decide (None ∈ fs) then WaitRaise NotAwaitable
      else if existsb (handle_done w) fs then WaitReady
      else WaitBlocked
  end.

Definition store_result (a : addr) (v : value) (w : Interledger) : Interledger :=
  {| heap := <[a := set_state COMPLETED (set_result v (obj w a))]> (heap w);
     futs := futs w; requests := requests w;
     transfers := transfers w; transfers_sent := transfers_sent w;
     pending := pending w; keep_running := keep_running w;
     results_abort := results_abort w; results_commit := results_commit w |}.

(** The [for] loop of [transfer_result].  The guard
    [t.state == SENT and not t.state == COMPLETED and t.future.done()] is
    evaluated left to right: [t.future] is dereferenced only for a [SENT]
    transfer, and [t.future.result()] re-raises the exception of a failed
    future. *)
Fixpoint collect_loop (l : list addr) (w : Interledger) : outcome unit :=
  match l with
  | [] => Returned () w
  | a :: l' =>
      let t := obj w a in
      if bool_decide (state t = SENT) && negb (bool_decide (state t = COMPLETED)) then
        match future t with
        | None => Raised AttributeError w
        | Some f =>
            match fut w f with
            | FPending => collect_loop l' w
            | FDone v => collect_loop l' (store_result a v w)
            | FFailed e => Raised e w
            end
        end
      else collect_loop l' w
  end.

(** [transfer_result] from its [await] on: [fs] is the list [futures] the
    coroutine built when it was called, [w] the engine at the time its wait
    is over.  Other coroutines may have run in between, so [fs] need not be
    [futures w]: the loop goes over [self.transfers_sent] as it is then. *)
Definition transfer_result_resume (fs : list (option fid)) (w : Interledger)
    : outcome unit :=
  match wait_first_completed w fs with
  | WaitRaise e => Raised e w
  | WaitBlocked => Blocked
  | WaitReady => collect_loop (transfers_sent w) w
  end.

(** [transfer_result] called and run to its end with no other coroutine in
    between. *)
Definition transfer_result (w : Interledger) : outcome unit :=
  transfer_result_resume (futures w) w.

(** *** [process_result] *)

Definition finalize (a : addr) (w : Interledger) : Interledger :=
  let t := obj w a in
  {| heap := <[a := set_state PROCESSED t]> (heap w);
     futs := futs w;
     requests := requests w ++ [if truthy (result t) then ReqCommit a else ReqAbort a];
     transfers := transfers w; transfers_sent := transfers_sent w;
     pending := pending w - 1;
     keep_running := keep_running w;
     results_abort :=
       if truthy (result t) then results_abort w else results_abort w ++ [result t];
     results_commit :=
       if truthy (result t) then results_commit w ++ [result t] else results_commit w |}.

Definition process_step (w : Interledger) (a : addr) : Interledger :=
  if decide (state (obj w a) = COMPLETED) then finalize a w else w.

Definition process_result (w : Interledger) : Interledger :=
  foldl process_step w (transfers_sent w).

(** ** [class StateInterledger] *)

(** Modelled from the spec: the enumeration [AssetState], whose declaration
    in [state_interfaces.py] is missing, with the three state tags the
    specification lists. *)
Inductive AssetState := TRANSFER_OUT | HERE | NOT_HERE.

(** Modelled from the spec: the [query_by_state] method of the state-aware
    adapters, whose classes are missing as well; it returns the asset
    identifiers currently in the given ledger state.  The constructor does
    not change the ledgers, so the queries are answered by a function. *)
Record StateInitiator := { initiator_query_by_state : AssetState → list value }.
Record StateResponder := { responder_query_by_state : AssetState → list value }.

(** Python's sets and dicts compare their elements with [==] and [hash],
    for which [True] is [1] and [False] is [0]: a boolean and the integer it
    equals are one element.  [py_key v] is the same for the values that are
    equal in this sense, and for no others. *)
Definition py_key (v : value) : value :=
  match v with
  | VBool true => VInt 1
  | VBool false => VInt 0
  | _ => v
  end.

(** [set(l)], as the map from each key to the element kept for it: adding
    an element equal to one of the set leaves the set as it is, so the first
    of several equal elements of [l] stays. *)
Definition py_set (l : list value) : gmap value value :=
  list_to_map ((λ v, (py_key v, v)) <$> l).

(** The elements of [set(l)] up to [==]. *)
Definition py_keys (l : list value) : gset value :=
  list_to_set (py_key <$> l).

(** [list(set(t_list_initiator).intersection(t_list_responder))]:
    [intersection] goes through its argument, a list, and adds to a new set
    each element that is in [set(t_list_initiator)]; the identifiers listed
    are therefore elements of [t_list_responder], one for each identifier
    the two lists share up to [==].  The order in which a Python set is
    listed is not specified, and neither is the one of [map_to_list]. *)
Definition common_ids (l1 l2 : list value) : list value :=
  (map_to_list
     (py_set (filter (λ v, py_key v ∈ dom (py_set l1)) l2))).*2.

(** The [Transfer] built in [restore_pending_transfers_ready]. *)
Definition ready_transfer (i : value) : Transfer :=
  set_data (Some {[ "assetId"%string := i ]}) Transfer_init.

(** The [Transfer] built in [restore_pending_transfers_sent]. *)
Definition completed_transfer (i : value) : Transfer :=
  set_result (VBool true) (set_state COMPLETED (ready_transfer i)).

(** The loop [for i in ids: t = Transfer(); ...; new_transfers.append(t)]:
    every [Transfer()] is a new object of the store. *)
Fixpoint restore_loop (mk : value → Transfer) (ids : list value)
    (new_transfers : list addr) (h : gmap addr Transfer)
    : list addr * gmap addr Transfer :=
  match ids with
  | [] => (new_transfers, h)
  | i :: ids' =>
      let a := fresh (dom h) in
      restore_loop mk ids' (new_transfers ++ [a]) (<[a := mk i]> h)
  end.

Definition restore_pending_transfers_ready (ini : StateInitiator)
    (res : StateResponder) (h : gmap addr Transfer) :=
  let t_list_initiator := initiator_query_by_state ini TRANSFER_OUT in
  let t_list_responder := responder_query_by_state res NOT_HERE in
  restore_loop ready_transfer (common_ids t_list_initiator t_list_responder) [] h.

Definition restore_pending_transfers_sent (ini : StateInitiator)
    (res : StateResponder) (h : gmap addr Transfer) :=
  let t_list_initiator := initiator_query_by_state ini TRANSFER_OUT in
  let t_list_responder := responder_query_by_state res HERE in
  restore_loop completed_transfer (common_ids t_list_initiator t_list_responder) [] h.

(** [StateInterledger.__init__] *)
Definition StateInterledger_init (ini : StateInitiator) (res : StateResponder)
    (h : gmap addr Transfer) (fs : gmap fid fut_state) : Interledger :=
  let w := Interledger_init h fs in
  let '(ready, h1) := restore_pending_transfers_ready ini res (heap w) in
  let '(sent, h2) := restore_pending_transfers_sent ini res h1 in
  {| heap := h2; futs := futs w; requests := requests w;
     transfers := ready; transfers_sent := sent;
     pending := pending w + Z.of_nat (length sent);
     keep_running := keep_running w;
     results_abort := results_abort w; results_commit := results_commit w |}.

(** ** Runs of the engine *)

(** The coroutines of the engine run on one event loop and are suspended
    only at their single [await]; between two suspension points a stage
    runs alone.  While the loop of [Interledger.run] is suspended (at
    [await receive], at [asyncio.wait([receive, result])], at [await send]
    or [await process]), the event loop runs whatever is ready: the tasks
    of this iteration, the [receive_transfer] and [transfer_result] tasks
    earlier iterations left suspended, and the tasks of the adapters, which
    complete futures.  A run of [Interledger.run] is therefore a sequence
    of the following atomic actions: a stage operation running to its end
    ([ActResume] is a [transfer_result] called earlier in the run, whose
    wait is over only now), the event loop completing a pending future, or
    [stop]; an iteration of the loop is a part of that sequence. *)
Inductive action :=
  | ActReceive (p : poll_result)
  | ActSend
  | ActResult
  | ActResume (fs : list (option fid))
  | ActProcess
  | ActComplete (f : fid) (s : fut_state)
  | ActStop.

(** The engine a coroutine leaves behind. *)
Definition after {A} (o : outcome A) (w : Interledger) : Interledger :=
  match o with
  | Returned _ w' => w'
  | Raised _ w' => w'
  | Blocked => w
  end.

(** The event loop sets the result or the exception of a pending future. *)
Definition complete (f : fid) (s : fut_state) (w : Interledger) : Interledger :=
  if bool_decide (futs w !! f = Some FPending) then
    {| heap := heap w; futs := <[f := s]> (futs w); requests := requests w;
       transfers := transfers w; transfers_sent := transfers_sent w;
       pending := pending w; keep_running := keep_running w;
       results_abort := results_abort w; results_commit := results_commit w |}
  else w.

Definition exec (act : action) (w : Interledger) : Interledger :=
  match act with
  | ActReceive p => after (receive_transfer p w) w
  | ActSend => send_transfer w
  | ActResult => after (transfer_result w) w
  | ActResume fs => after (transfer_result_resume fs w) w
  | ActProcess => process_result w
  | ActComplete f s => complete f s w
  | ActStop => stop w
  end.

Definition run_actions (acts : list action) (w : Interledger) : Interledger :=
  foldl (λ w act, exec act w) w acts.

(** The engines a run goes through, the first one included. *)
Fixpoint trace (acts : list action) (w : Interledger) : list Interledger :=
  match acts with
  | [] => [w]
  | act :: acts' => w :: trace acts' (exec act w)
  end.

(** The states a transfer goes through, repetitions removed. *)
Fixpoint changes (l : list State) : list State :=
  match l with
  | s :: (s' :: _) as l' => if decide (s = s') then changes l' else s :: changes l'
  | _ => l
  end.

Definition lifecycle : list State := [READY; SENT; COMPLETED; PROCESSED].

Definition rank (s : State) : nat :=
  match s with READY => 0 | SENT => 1 | COMPLETED => 2 | PROCESSED => 3 end.

(** [pending] counts these transfers. *)
Definition in_flight (s : State) : bool :=
  match s with SENT | COMPLETED => true | _ => false end.

Definition active (w : Interledger) : gset addr :=
  list_to_set (filter (λ a, in_flight (state (obj w a)) = true) (transfers_sent w)).

Definition pending_inv (w : Interledger) : Prop :=
  pending w = Z.of_nat (size (active w)).

(** The call [process_result] schedules on the Initiator for a transfer. *)
Definition verdict (w : Interledger) (a : addr) : request :=
  if truthy (result (obj w a)) then ReqCommit a else ReqAbort a.

(** A coroutine has come to its end (it is not suspended) and leaves an
    engine satisfying [P]. *)
Definition ends_in {A} (o : outcome A) (P : Interledger → Prop) : Prop :=
  match o with
  | Returned _ w' => P w'
  | Raised _ w' => P w'
  | Blocked => False
  end.

(** What [transfer_result] does to a transfer it completes. *)
Definition collected (v : value) (t : Transfer) : Transfer :=
  set_state COMPLETED (set_result v t).

(** One step of the life of a transfer: its state stays, or moves to the
    next one. *)
Definition advances (s s' : State) : Prop :=
  s' = s ∨ rank s' = S (rank s).

(** The transfer a call on an adapter is about. *)
Definition request_addr (r : request) : addr :=
  match r with
  | ReqReceive a _ => a
  | ReqCommit a => a
  | ReqAbort a => a
  end.

(** The receive handle of every transfer of [transfers_sent] that is past
    [SENT] is a future that is done. *)
Definition handles_done (w : Interledger) : Prop :=
  ∀ a f, a ∈ transfers_sent w → state (obj w a) ≠ READY → state (obj w a) ≠ SENT →
         future (obj w a) = Some f → done (fut w f) = true.

(** ** Engines used as examples *)

Definition two_transfers : gmap addr Transfer :=
  {[ 0%nat := Transfer_init; 1%nat := Transfer_init ]}.

(** One transfer has been delivered by the poll. *)
Definition one_ready : Interledger :=
  run_actions [ActReceive (PollDeliver [0%nat])] (Interledger_init two_transfers ∅).

(** One transfer has been delivered and dispatched, and its [receive] has
    raised. *)
Definition failed_receive : Interledger :=
  run_actions
    [ActReceive (PollDeliver [0%nat]); ActSend;
     ActComplete 0%nat (FFailed (AdapterError "receive failed"))]
    (Interledger_init two_transfers ∅).

(** Two transfers have been delivered and dispatched; the [receive] of the
    second one has returned [True]. *)
Definition one_done : Interledger :=
  run_actions
    [ActReceive (PollDeliver [0%nat; 1%nat]); ActSend;
     ActComplete 1%nat (FDone (VBool true))]
    (Interledger_init two_transfers ∅).

(** The same, after [transfer_result]: the second transfer is
    [COMPLETED]. *)
Definition one_completed : Interledger := run_actions [ActResult] one_done.

(** The same, after [process_result]: the second transfer is [PROCESSED],
    the first one still awaits its [receive]. *)
Definition one_processed : Interledger := run_actions [ActProcess] one_completed.

(** Adapters answering [query_by_state] from fixed lists. *)
Definition ledger_initiator (out : list value) : StateInitiator :=
  {| initiator_query_by_state := λ s,
       match s with TRANSFER_OUT => out | _ => [] end |}.

Definition ledger_responder (here not_here : list value) : StateResponder :=
  {| responder_query_by_state := λ s,
       match s with HERE => here | NOT_HERE => not_here | TRANSFER_OUT => [] end |}.

(** A poll delivers three transfers at once; the [receive] of the first and
    of the third returns [True], the one of the second [False]; then come
    [transfer_result] and [process_result]. *)
Definition mixed_batch : Interledger :=
  run_actions
    [ActReceive (PollDeliver [0%nat; 1%nat; 2%nat]); ActSend;
     ActComplete 0%nat (FDone (VBool true));
     ActComplete 1%nat (FDone (VBool false));
     ActComplete 2%nat (FDone (VBool true));
     ActResult; ActProcess]
    (Interledger_init
       {[ 0%nat := Transfer_init; 1%nat := Transfer_init; 2%nat := Transfer_init ]} ∅).

(** The state-aware engine built when asset [X] is [TRANSFER_OUT] on the
    Initiator and [HERE] on the Responder. *)
Definition recovered : Interledger :=
  StateInterledger_init (ledger_initiator [VStr "X"])
    (ledger_responder [VStr "X"] []) ∅ ∅.

(** ** Invariants of the engine *)

(** What a call is: a receive or a commit-or-abort, and for which
    transfer. *)
Definition request_tag (r : request) : bool * addr :=
  match r with
  | ReqReceive a _ => (true, a)
  | ReqCommit a => (false, a)
  | ReqAbort a => (false, a)
  end.

(** [transfers_sent] lists no transfer twice, and none that is [READY]. *)
Definition sent_wf (w : Interledger) : Prop :=
  NoDup (transfers_sent w)
  ∧ ∀ a, a ∈ transfers_sent w → state (obj w a) ≠ READY.

(** The log of calls against the transfers: no transfer has two receives
    or two commit-or-aborts; a receive is for a transfer of
    [transfers_sent] that left [READY] and holds the future of the call; a
    commit is for a [PROCESSED] transfer with a true result, an abort for a
    [PROCESSED] transfer with a false one. *)
Definition log_inv (w : Interledger) : Prop :=
  NoDup (request_tag <$> requests w)
  ∧ ∀ r, r ∈ requests w →
      request_addr r ∈ transfers_sent w
      ∧ match r with
        | ReqReceive a f =>
            state (obj w a) ≠ READY ∧ future (obj w a) = Some f
        | ReqCommit a =>
            state (obj w a) = PROCESSED ∧ truthy (result (obj w a)) = true
        | ReqAbort a =>
            state (obj w a) = PROCESSED ∧ truthy (result (obj w a)) = false
        end.

(** The result of a transfer of [transfers_sent] that is past [SENT] is
    the one its receive handle holds. *)
Definition handle_result_inv (w : Interledger) : Prop :=
  ∀ a f, a ∈ transfers_sent w →
    state (obj w a) = COMPLETED ∨ state (obj w a) = PROCESSED →
    future (obj w a) = Some f → fut w f = FDone (result (obj w a)).

(** Every transfer of [transfers_sent] is pending or accounted for in one
    of the two lists of results. *)
Definition accounts_inv (w : Interledger) : Prop :=
  Z.of_nat (length (transfers_sent w))
  = pending w + Z.of_nat (length (results_commit w))
    + Z.of_nat (length (results_abort w))
  ∧ Forall (λ v, truthy v = true) (results_commit w)
  ∧ Forall (λ v, truthy v = false) (results_abort w).

(** Every transfer of [transfers_sent] has a receive handle and comes from
    the pool. *)
Definition dispatched_inv (w : Interledger) : Prop :=
  ∀ a, a ∈ transfers_sent w → is_Some (future (obj w a)) ∧ a ∈ transfers w.

(** The engines the two constructors build. *)
Inductive constructed : Interledger → Prop :=
  | constructed_plain h fs : constructed (Interledger_init h fs)
  | constructed_state ini res h fs :
      constructed (StateInterledger_init ini res h fs).

(** The transfer [a], which follows [l1] in [transfers_sent], is [SENT] with
    a receive handle that has failed, and the transfer [b] has not been
    collected: it is [READY] or [SENT], its result is [v], and no commit or
    abort has been issued for it. *)
Definition held_up (l1 : list addr) (a : addr) (f : fid) (e : exn)
    (b : addr) (v : value) (w : Interledger) : Prop :=
  (∃ l2, transfers_sent w = l1 ++ a :: l2)
  ∧ state (obj w a) = SENT ∧ future (obj w a) = Some f ∧ fut w f = FFailed e
  ∧ (state (obj w b) = READY ∨ state (obj w b) = SENT)
  ∧ result (obj w b) = v
  ∧ (ReqCommit b ∉ requests w) ∧ (ReqAbort b ∉ requests w).

(** Two transfers have been delivered and dispatched; the [receive] of the
    first one has raised, the one of the second has returned [True]. *)
Definition first_failed : Interledger :=
  run_actions
    [ActReceive (PollDeliver [0%nat; 1%nat]); ActSend;
     ActComplete 0%nat (FFailed (AdapterError "receive failed"));
     ActComplete 1%nat (FDone (VBool true))]
    (Interledger_init two_transfers ∅).

(** ** [Interledger.run] *)

(** The coroutine [run] and the tasks it creates share one event loop.  A
    task runs from one [await] to the next without interruption; what runs
    next is up to the event loop and to the adapters.  The embedding is a
    transition system: its state holds the engine, the point at which
    [run] is suspended and the tasks created so far; an [event] is one
    uninterrupted piece of a task. *)

(** A task [receive], created by [ensure_future(self.receive_transfer())]:
    it awaits the poll of the Initiator, or has come to its end. *)
Inductive receive_task :=
  | RecvWaiting
  | RecvReturned (n : nat)
  | RecvRaised (e : exn).

(** A task [result], created by [ensure_future(self.transfer_result())]:
    [awaited] is the list [futures] it built when it started. *)
Inductive result_status :=
  | ResWaiting
  | ResReturned
  | ResRaised (e : exn).

Record result_task := mkResultTask {
  awaited : list (option fid);
  status : result_status;
}.

(** Where [run] is: suspended at [await receive]; suspended at
    [asyncio.wait([receive, result])]; suspended at [await send], the tasks
    [send] and [process] not having run yet; about to resume after them;
    or over, by the end of the loop or by an exception. *)
Inductive run_point :=
  | AwaitReceive (r : nat)
  | AwaitEither (r t : nat)
  | AwaitSend
  | Resuming
  | RunReturned
  | RunRaised (e : exn).

Record run_state := mkRunState {
  engine : Interledger;
  point : run_point;
  receives : list receive_task;
  results : list result_task;
}.

Definition set_engine (w : Interledger) (st : run_state) : run_state :=
  {| engine := w; point := point st; receives := receives st;
     results := results st |}.
Definition set_point (p : run_point) (st : run_state) : run_state :=
  {| engine := engine st; point := p; receives := receives st;
     results := results st |}.
Definition set_receives (l : list receive_task) (st : run_state) : run_state :=
  {| engine := engine st; point := point st; receives := l;
     results := results st |}.
Definition set_results (l : list result_task) (st : run_state) : run_state :=
  {| engine := engine st; point := point st; receives := receives st;
     results := l |}.

Definition receive_done (st : run_state) (r : nat) : bool :=
  match receives st !! r with
  | Some (RecvReturned _) => true
  | Some (RecvRaised _) => true
  | _ => false
  end.

Definition result_done (st : run_state) (t : nat) : bool :=
  match status <$> results st !! t with
  | Some ResReturned => true
  | Some (ResRaised _) => true
  | _ => false
  end.

(** The task [result] as it starts: it builds [futures] and calls
    [asyncio.wait], which raises at once or suspends the task. *)
Definition start_result (w : Interledger) : result_task :=
  {| awaited := futures w;
     status := match wait_first_completed w (futures w) with
               | WaitRaise e => ResRaised e
               | _ => ResWaiting
               end |}.

(** [run] from the test of its [while] to its first [await]: the loop ends
    when [keep_running] is false; otherwise the task [receive] is created
    and, unless [pending] is 0, the task [result]. *)
Definition loop_head (st : run_state) : run_state :=
  if keep_running (engine st) then
    let r := length (receives st) in
    if bool_decide (pending (engine st) = 0) then
      set_point (AwaitReceive r) (set_receives (receives st ++ [RecvWaiting]) st)
    else
      let t := length (results st) in
      set_point (AwaitEither r t)
        (set_results (results st ++ [start_result (engine st)])
           (set_receives (receives st ++ [RecvWaiting]) st))
  else set_point RunReturned st.

(** What happens next on the event loop: the poll awaited by the
    [receive] task [r] answers; the wait of the [result] task [t] is over
    and the task runs to its end; a future is completed; somebody calls
    [stop]; the tasks [send] and [process], created one after the other,
    run one after the other; [run] resumes. *)
Inductive event :=
  | EvPoll (r : nat) (p : poll_result)
  | EvResult (t : nat)
  | EvFuture (f : fid) (s : fut_state)
  | EvStop
  | EvSendProcess
  | EvRun.

(** One event; an event that cannot happen in [st] leaves it as it is.
    [run] resumes from [await receive] when its task [receive] is done,
    re-raising its exception; from [asyncio.wait], which raises nothing,
    when one of its two tasks is done; and from [await send] once [send]
    and [process] have run, to go back to the head of the loop. *)
Definition step (ev : event) (st : run_state) : run_state :=
  match ev with
  | EvPoll r p =>
      match receives st !! r with
      | Some RecvWaiting =>
          set_engine (after (receive_transfer p (engine st)) (engine st))
            (set_receives
               (<[r := match p with
                       | PollRaise e => RecvRaised e
                       | PollDeliver ts => RecvReturned (length ts)
                       end]> (receives st)) st)
      | _ => st
      end
  | EvResult t =>
      match results st !! t with
      | Some {| awaited := fs; status := ResWaiting |} =>
          match transfer_result_resume fs (engine st) with
          | Returned _ w' =>
              set_engine w'
                (set_results
                   (<[t := {| awaited := fs; status := ResReturned |}]> (results st)) st)
          | Raised e w' =>
              set_engine w'
                (set_results
                   (<[t := {| awaited := fs; status := ResRaised e |}]> (results st)) st)
          | Blocked => st
          end
      | _ => st
      end
  | EvFuture f s => set_engine (complete f s (engine st)) st
  | EvStop => set_engine (stop (engine st)) st
  | EvSendProcess =>
      match point st with
      | AwaitSend =>
          set_point Resuming
            (set_engine (process_result (send_transfer (engine st))) st)
      | _ => st
      end
  | EvRun =>
      match point st with
      | AwaitReceive r =>
          match receives st !! r with
          | Some (RecvReturned _) => set_point AwaitSend st
          | Some (RecvRaised e) => set_point (RunRaised e) st
          | _ => st
          end
      | AwaitEither r t =>
          if receive_done st r || result_done st t then set_point AwaitSend st
          else st
      | Resuming => loop_head st
      | _ => st
      end
  end.

(** [run] called on the engine [w]; nothing has happened yet but its own
    first piece, up to the first [await]. *)
Definition run_start (w : Interledger) : run_state :=
  loop_head {| engine := w; point := Resuming; receives := []; results := [] |}.

Definition steps (sched : list event) (st : run_state) : run_state :=
  foldl (λ st ev, step ev st) st sched.

(** [Interledger.run] under a schedule of events. *)
Definition run (sched : list event) (w : Interledger) : run_state :=
  steps sched (run_start w).

(** The poll delivers one transfer, whose [receive] returns [True]; [stop]
    is called while the second iteration waits, and a last poll, empty,
    lets the loop end. *)
Definition happy_schedule : list event :=
  [EvPoll 0%nat (PollDeliver [0%nat]); EvRun; EvSendProcess; EvRun;
   EvFuture 0%nat (FDone (VBool true)); EvResult 0%nat; EvRun; EvSendProcess;
   EvRun; EvStop; EvPoll 2%nat (PollDeliver []); EvRun; EvSendProcess; EvRun].

(** What holds of [run] at every point: [pending] counts the transfers in
    flight; no task [result] was started on an empty list of futures;
    [run] waits for the poll alone only when [pending] is 0, has raised
    only the exception of a poll, with [pending] 0, and has returned only
    with [keep_running] false. *)
Definition run_inv (st : run_state) : Prop :=
  pending_inv (engine st)
  ∧ (∀ t task, results st !! t = Some task → awaited task ≠ [])
  ∧ match point st with
    | AwaitReceive r => pending (engine st) = 0
    | RunRaised e =>
        pending (engine st) = 0 ∧ ∃ r, receives st !! r = Some (RecvRaised e)
    | RunReturned => keep_running (engine st) = false
    | _ => True
    end.

(** * Properties *)

(** The list of what an action appends can be the empty one. *)
Ltac nothing_new :=
  exists []; split; [by rewrite app_nil_r | by intros ? ?%elem_of_nil].

(** ** The object store under the elementary updates *)

Lemma obj_dispatch_eq a w :
  obj (dispatch a w) a
  = set_future (Some (fresh (dom (futs w)))) (set_state SENT (obj w a)).
Proof. unfold obj; simpl. by rewrite lookup_total_insert_eq. Qed.

Lemma obj_dispatch_ne a x w : a ≠ x → obj (dispatch a w) x = obj w x.
Proof. intros. unfold obj; simpl. by rewrite lookup_total_insert_ne. Qed.

Lemma obj_store_result_eq a v w :
  obj (store_result a v w) a = collected v (obj w a).
Proof. unfold obj; simpl. by rewrite lookup_total_insert_eq. Qed.

Lemma obj_store_result_ne a x v w : a ≠ x → obj (store_result a v w) x = obj w x.
Proof. intros. unfold obj; simpl. by rewrite lookup_total_insert_ne. Qed.

Lemma obj_finalize_eq a w : obj (finalize a w) a = set_state PROCESSED (obj w a).
Proof. unfold obj; simpl. by rewrite lookup_total_insert_eq. Qed.

Lemma obj_finalize_ne a x w : a ≠ x → obj (finalize a w) x = obj w x.
Proof. intros. unfold obj; simpl. by rewrite lookup_total_insert_ne. Qed.

Lemma fresh_fut_not_in_dom w : fresh (dom (futs w)) ∉ dom (futs w).
Proof. apply is_fresh. Qed.

(** ** [send_transfer] *)

Lemma send_step_ready w a : state (obj w a) = READY → send_step w a = dispatch a w.
Proof. intros H. unfold send_step. by rewrite decide_True. Qed.

Lemma send_step_other w a : state (obj w a) ≠ READY → send_step w a = w.
Proof. intros H. unfold send_step. by rewrite decide_False. Qed.

Lemma send_loop_frame (l : list addr) (w : Interledger) :
  transfers (foldl send_step w l) = transfers w
  ∧ keep_running (foldl send_step w l) = keep_running w
  ∧ results_abort (foldl send_step w l) = results_abort w
  ∧ results_commit (foldl send_step w l) = results_commit w.
Proof.
  revert w. induction l as [|a l IH]; intros w; [done|].
  simpl. destruct (IH (send_step w a)) as (-> & -> & -> & ->).
  unfold send_step. by case_decide.
Qed.

(** What the loop of [send_transfer] does over a list [l] of addresses:
    [d] lists the transfers it dispatches, in the order of their first
    occurrence. *)
Lemma send_loop_spec (l : list addr) (w : Interledger) :
  ∃ d : list addr,
    NoDup d
    ∧ (∀ a, a ∈ d ↔ a ∈ l ∧ state (obj w a) = READY)
    ∧ transfers_sent (foldl send_step w l) = transfers_sent w ++ d
    ∧ pending (foldl send_step w l) = pending w + Z.of_nat (length d)
    ∧ (∀ a, a ∈ d → ∃ f,
          obj (foldl send_step w l) a
          = set_future (Some f) (set_state SENT (obj w a))
          ∧ (f ∉ dom (futs w))
          ∧ futs (foldl send_step w l) !! f = Some FPending
          ∧ ReqReceive a f ∈ requests (foldl send_step w l))
    ∧ (∀ a, a ∉ d → obj (foldl send_step w l) a = obj w a)
    ∧ (∀ f, f ∈ dom (futs w) → futs (foldl send_step w l) !! f = futs w !! f)
    ∧ (∃ rs, requests (foldl send_step w l) = requests w ++ rs
             ∧ ∀ r, r ∈ rs → ∃ a f, r = ReqReceive a f ∧ a ∈ d).
Proof.
  revert w. induction l as [|a0 l IH]; intros w.
  - exists []. simpl. split_and!.
    + constructor.
    + intros a. split; [by intros ?%elem_of_nil | by intros [?%elem_of_nil _]].
    + by rewrite app_nil_r.
    + lia.
    + by intros a ?%elem_of_nil.
    + done.
    + done.
    + exists []. split; [by rewrite app_nil_r | by intros r ?%elem_of_nil].
  - change (foldl send_step w (a0 :: l)) with (foldl send_step (send_step w a0) l).
    destruct (decide (state (obj w a0) = READY)) as [Hr|Hr].
    + rewrite (send_step_ready _ _ Hr).
      destruct (IH (dispatch a0 w))
        as (d & Hnd & Hd & Hsent & Hpend & Hobj & Hframe & Hfuts & rs & Hrs & Hrs').
      assert (Ha0 : a0 ∉ d).
      { intros [_ Hs]%Hd. rewrite obj_dispatch_eq in Hs. discriminate. }
      exists (a0 :: d). split_and!.
      * by constructor.
      * intros a. rewrite elem_of_cons, Hd, elem_of_cons.
        destruct (decide (a = a0)) as [->|Hne].
        -- rewrite obj_dispatch_eq. simpl. naive_solver.
        -- rewrite obj_dispatch_ne by done. naive_solver.
      * rewrite Hsent. simpl. by rewrite <- app_assoc.
      * rewrite Hpend. simpl pending. rewrite length_cons. lia.
      * intros a [->|Ha]%elem_of_cons.
        -- exists (fresh (dom (futs w))). split_and!.
           ++ rewrite Hframe by done. apply obj_dispatch_eq.
           ++ apply fresh_fut_not_in_dom.
           ++ rewrite Hfuts; simpl.
              ** by rewrite lookup_insert_eq.
              ** rewrite dom_insert_L. set_solver.
           ++ rewrite Hrs. simpl. set_solver.
        -- destruct (Hobj a Ha) as (f & Ho & Hf & Hp & Hreq).
           assert (a ≠ a0) by (intros ->; done).
           exists f. split_and!; try done.
           ++ rewrite Ho, obj_dispatch_ne by done. done.
           ++ simpl in Hf. rewrite dom_insert_L in Hf. set_solver.
      * intros a Ha. rewrite not_elem_of_cons in Ha. destruct Ha as [Hne Ha].
        rewrite Hframe by done. by apply obj_dispatch_ne.
      * intros f Hf. rewrite Hfuts; simpl.
        -- rewrite lookup_insert_ne; [done|].
           intros <-. by apply fresh_fut_not_in_dom in Hf.
        -- rewrite dom_insert_L. set_solver.
      * exists (ReqReceive a0 (fresh (dom (futs w))) :: rs). split.
        -- rewrite Hrs. simpl. by rewrite <- app_assoc.
        -- intros r [->|Hr']%elem_of_cons.
           ++ exists a0, (fresh (dom (futs w))). split; [done|]. set_solver.
           ++ destruct (Hrs' r Hr') as (a & f & -> & Ha). exists a, f. set_solver.
    + rewrite (send_step_other _ _ Hr).
      destruct (IH w)
        as (d & Hnd & Hd & Hsent & Hpend & Hobj & Hframe & Hfuts & rs & Hrs & Hrs').
      exists d. split_and!; try done.
      * intros a. rewrite Hd, elem_of_cons. naive_solver.
      * by exists rs.
Qed.

(** ** [process_result] *)

Lemma process_step_completed w a :
  state (obj w a) = COMPLETED → process_step w a = finalize a w.
Proof. intros H. unfold process_step. by rewrite decide_True. Qed.

Lemma process_step_other w a : state (obj w a) ≠ COMPLETED → process_step w a = w.
Proof. intros H. unfold process_step. by rewrite decide_False. Qed.

Lemma result_finalize a x w : result (obj (finalize a w) x) = result (obj w x).
Proof.
  destruct (decide (a = x)) as [->|Hne].
  - by rewrite obj_finalize_eq.
  - by rewrite obj_finalize_ne.
Qed.

Lemma verdict_finalize a x w : verdict (finalize a w) x = verdict w x.
Proof. unfold verdict. by rewrite result_finalize. Qed.

(** What the loop of [process_result] does over a list [l] of addresses:
    [d] lists the transfers it finalizes, in the order of their first
    occurrence. *)
Lemma process_loop_spec (l : list addr) (w : Interledger) :
  ∃ d : list addr,
    NoDup d
    ∧ (∀ a, a ∈ d ↔ a ∈ l ∧ state (obj w a) = COMPLETED)
    ∧ requests (foldl process_step w l) = requests w ++ (verdict w <$> d)
    ∧ results_commit (foldl process_step w l)
      = results_commit w
        ++ ((λ a, result (obj w a)) <$> filter (λ a, truthy (result (obj w a)) = true) d)
    ∧ results_abort (foldl process_step w l)
      = results_abort w
        ++ ((λ a, result (obj w a)) <$> filter (λ a, truthy (result (obj w a)) = false) d)
    ∧ pending (foldl process_step w l) = pending w - Z.of_nat (length d)
    ∧ (∀ a, a ∈ d → obj (foldl process_step w l) a = set_state PROCESSED (obj w a))
    ∧ (∀ a, a ∉ d → obj (foldl process_step w l) a = obj w a)
    ∧ futs (foldl process_step w l) = futs w
    ∧ transfers (foldl process_step w l) = transfers w
    ∧ transfers_sent (foldl process_step w l) = transfers_sent w
    ∧ keep_running (foldl process_step w l) = keep_running w.
Proof.
  revert w. induction l as [|a0 l IH]; intros w.
  - exists []. simpl. split_and!; try done.
    + constructor.
    + intros a. split; [by intros ?%elem_of_nil | by intros [?%elem_of_nil _]].
    + by rewrite app_nil_r.
    + by rewrite app_nil_r.
    + by rewrite app_nil_r.
    + lia.
    + by intros a ?%elem_of_nil.
  - change (foldl process_step w (a0 :: l))
      with (foldl process_step (process_step w a0) l).
    destruct (decide (state (obj w a0) = COMPLETED)) as [Hc|Hc].
    + rewrite (process_step_completed _ _ Hc).
      destruct (IH (finalize a0 w))
        as (d & Hnd & Hd & Hreq & Hcom & Habo & Hpend & Hobj & Hframe & Hf & Ht & Hs & Hk).
      assert (Ha0 : a0 ∉ d).
      { intros [_ Hst]%Hd. rewrite obj_finalize_eq in Hst. discriminate. }
      assert (Hfm : ∀ l' : list addr,
                 (λ a, result (obj (finalize a0 w) a)) <$> l'
                 = (λ a, result (obj w a)) <$> l').
      { intros l'. apply list_fmap_ext. intros _ x _. apply result_finalize. }
      exists (a0 :: d). split_and!.
      * by constructor.
      * intros a. rewrite elem_of_cons, Hd, elem_of_cons.
        destruct (decide (a = a0)) as [->|Hne].
        -- rewrite obj_finalize_eq. simpl. naive_solver.
        -- rewrite obj_finalize_ne by done. naive_solver.
      * rewrite Hreq. simpl. rewrite <- app_assoc. f_equal. simpl. f_equal.
        apply list_fmap_ext. intros _ x _. apply verdict_finalize.
      * rewrite Hcom, Hfm. simpl results_commit.
        rewrite (list_filter_iff _ (λ a, truthy (result (obj w a)) = true))
          by (intros x; by rewrite result_finalize).
        rewrite filter_cons. destruct (truthy (result (obj w a0))) eqn:Htr.
        -- rewrite decide_True by done. by rewrite <- app_assoc.
        -- rewrite decide_False by done. done.
      * rewrite Habo, Hfm. simpl results_abort.
        rewrite (list_filter_iff _ (λ a, truthy (result (obj w a)) = false))
          by (intros x; by rewrite result_finalize).
        rewrite filter_cons. destruct (truthy (result (obj w a0))) eqn:Htr.
        -- rewrite decide_False by done. done.
        -- rewrite decide_True by done. by rewrite <- app_assoc.
      * rewrite Hpend. simpl pending. rewrite length_cons. lia.
      * intros a [->|Ha]%elem_of_cons.
        -- rewrite Hframe by done. apply obj_finalize_eq.
        -- assert (a ≠ a0) by (intros ->; done).
           rewrite (Hobj a Ha), obj_finalize_ne by done. done.
      * intros a Ha. rewrite not_elem_of_cons in Ha. destruct Ha as [Hne Ha].
        rewrite Hframe by done. by apply obj_finalize_ne.
      * by rewrite Hf.
      * by rewrite Ht.
      * by rewrite Hs.
      * by rewrite Hk.
    + rewrite (process_step_other _ _ Hc).
      destruct (IH w)
        as (d & Hnd & Hd & Hreq & Hcom & Habo & Hpend & Hobj & Hframe & Hf & Ht & Hs & Hk).
      exists d. split_and!; try done.
      intros a. rewrite Hd, elem_of_cons. naive_solver.
Qed.

(** ** [transfer_result] *)

Lemma collect_loop_skip a l w :
  state (obj w a) ≠ SENT → collect_loop (a :: l) w = collect_loop l w.
Proof.
  intros H. simpl. rewrite (bool_decide_eq_false_2 _ H). done.
Qed.

Lemma collect_loop_sent a l w :
  state (obj w a) = SENT →
  collect_loop (a :: l) w
  = match future (obj w a) with
    | None => Raised AttributeError w
    | Some f =>
        match fut w f with
        | FPending => collect_loop l w
        | FDone v => collect_loop l (store_result a v w)
        | FFailed e => Raised e w
        end
    end.
Proof.
  intros H. simpl. rewrite (bool_decide_eq_true_2 _ H).
  rewrite bool_decide_eq_false_2 by (rewrite H; discriminate). done.
Qed.

Lemma ends_in_impl {A} (o : outcome A) (P Q : Interledger → Prop) :
  (∀ w, P w → Q w) → ends_in o P → ends_in o Q.
Proof. intros HPQ. destruct o; simpl; auto. Qed.

(** The loop of [transfer_result] always comes to an end, by a return or by
    an exception; either way it has touched nothing but [SENT] transfers of
    [l] whose future holds a result, and those it has completed. *)
Lemma collect_loop_ends (l : list addr) (w : Interledger) :
  ends_in (collect_loop l w) (λ w',
    futs w' = futs w ∧ requests w' = requests w
    ∧ transfers w' = transfers w ∧ transfers_sent w' = transfers_sent w
    ∧ pending w' = pending w ∧ keep_running w' = keep_running w
    ∧ results_abort w' = results_abort w ∧ results_commit w' = results_commit w
    ∧ ∀ a, obj w' a = obj w a
           ∨ (a ∈ l ∧ state (obj w a) = SENT
              ∧ ∃ f v, future (obj w a) = Some f ∧ fut w f = FDone v
                       ∧ obj w' a = collected v (obj w a))).
Proof.
  revert w. induction l as [|a0 l IH]; intros w.
  - simpl. split_and!; auto.
  - destruct (decide (state (obj w a0) = SENT)) as [Hs|Hs].
    2:{ rewrite collect_loop_skip by done.
        eapply ends_in_impl; [|apply IH]. simpl.
        intros w' (?&?&?&?&?&?&?&?&Hobj). split_and!; try done.
        intros a. destruct (Hobj a) as [?|(?&?&?)]; [by left|right].
        split_and!; try done. set_solver. }
    rewrite collect_loop_sent by done.
    destruct (future (obj w a0)) as [f|] eqn:Hf; [|simpl; split_and!; auto].
    destruct (fut w f) as [|v|e] eqn:Hfs.
    + eapply ends_in_impl; [|apply IH]. simpl.
      intros w' (?&?&?&?&?&?&?&?&Hobj). split_and!; try done.
      intros a. destruct (Hobj a) as [?|(?&?&?)]; [by left|right].
      split_and!; try done. set_solver.
    + eapply ends_in_impl; [|apply (IH (store_result a0 v w))]. simpl.
      intros w' (?&?&?&?&?&?&?&?&Hobj). split_and!; try done.
      intros a. destruct (decide (a = a0)) as [->|Hne].
      * right. split_and!; [set_solver|done|]. exists f, v. split_and!; try done.
        destruct (Hobj a0) as [->|(_&Hst&_)].
        -- apply obj_store_result_eq.
        -- rewrite obj_store_result_eq in Hst. discriminate.
      * destruct (Hobj a) as [Ho|(Hin&Hst&f'&v'&Hf'&Hfs'&Ho)].
        -- left. rewrite Ho. by apply obj_store_result_ne.
        -- right. rewrite obj_store_result_ne in Hst, Hf', Ho by done.
           split_and!; [set_solver|done|]. by exists f', v'.
    + simpl. split_and!; auto.
Qed.

(** When the loop returns, every [SENT] transfer of [l] had a future, none
    of them failed, and exactly those holding a result were completed. *)
Lemma collect_loop_returned (l : list addr) (w w' : Interledger) :
  collect_loop l w = Returned () w' →
  ∀ a, a ∈ l → state (obj w a) = SENT →
    ∃ f, future (obj w a) = Some f
         ∧ match fut w f with
           | FPending => obj w' a = obj w a
           | FDone v => obj w' a = collected v (obj w a)
           | FFailed _ => False
           end.
Proof.
  revert w. induction l as [|a0 l IH]; intros w Hret a Hin Hsent.
  { by apply elem_of_nil in Hin. }
  destruct (decide (state (obj w a0) = SENT)) as [Hs|Hs].
  2:{ rewrite collect_loop_skip in Hret by done.
      apply elem_of_cons in Hin as [->|Hin]; [done|]. by apply IH. }
  rewrite collect_loop_sent in Hret by done.
  destruct (future (obj w a0)) as [f|] eqn:Hf; [|discriminate].
  pose proof (collect_loop_ends l w) as Hends.
  destruct (fut w f) as [|v|e] eqn:Hfs; [| |discriminate].
  - destruct (decide (a = a0)) as [->|Hne].
    + exists f. split; [done|]. rewrite Hfs.
      rewrite Hret in Hends. simpl in Hends.
      destruct Hends as (_&_&_&_&_&_&_&_&Hobj).
      destruct (Hobj a0) as [?|(_&_&f'&v'&Hf'&Hfs'&_)]; [done|].
      congruence.
    + apply elem_of_cons in Hin as [->|Hin]; [done|]. by apply IH.
  - clear Hends. pose proof (collect_loop_ends l (store_result a0 v w)) as Hends.
    rewrite Hret in Hends. simpl in Hends.
    destruct Hends as (_&_&_&_&_&_&_&_&Hobj).
    destruct (decide (a = a0)) as [->|Hne].
    + exists f. split; [done|]. rewrite Hfs.
      destruct (Hobj a0) as [->|(_&Hst&_)].
      * apply obj_store_result_eq.
      * rewrite obj_store_result_eq in Hst. discriminate.
    + apply elem_of_cons in Hin as [->|Hin]; [done|].
      destruct (IH _ Hret a Hin) as (f' & Hf' & Hm).
      { by rewrite obj_store_result_ne. }
      rewrite obj_store_result_ne in Hf', Hm by done.
      exists f'. split; [done|]. exact Hm.
Qed.

(** The loop returns when every [SENT] transfer of [l] has a future that
    has not failed. *)
Lemma collect_loop_returns (l : list addr) (w : Interledger) :
  (∀ a, a ∈ l → state (obj w a) = SENT →
     ∃ f, future (obj w a) = Some f ∧ ∀ e, fut w f ≠ FFailed e) →
  ∃ w', collect_loop l w = Returned () w'.
Proof.
  revert w. induction l as [|a0 l IH]; intros w Hok.
  { by exists w. }
  destruct (decide (state (obj w a0) = SENT)) as [Hs|Hs].
  2:{ rewrite collect_loop_skip by done. apply IH.
      intros a Hin. apply Hok. set_solver. }
  rewrite collect_loop_sent by done.
  destruct (Hok a0) as (f & Hf & Hnf); [set_solver|done|].
  rewrite Hf. destruct (fut w f) as [|v|e] eqn:Hfs.
  - apply IH. intros a Hin. apply Hok. set_solver.
  - apply IH. intros a Hin Hst.
    assert (a0 ≠ a).
    { intros ->. rewrite obj_store_result_eq in Hst. discriminate. }
    rewrite obj_store_result_ne in Hst |- * by done.
    apply Hok; [set_solver|done].
  - by destruct (Hnf e).
Qed.

(** A [SENT] transfer of [l] whose future failed (or is missing) makes the
    loop raise, and is left as it was. *)
Lemma collect_loop_raises (l : list addr) (w : Interledger) (a : addr) :
  a ∈ l → state (obj w a) = SENT →
  (future (obj w a) = None
   ∨ ∃ f e, future (obj w a) = Some f ∧ fut w f = FFailed e) →
  ∃ e' w', collect_loop l w = Raised e' w' ∧ obj w' a = obj w a.
Proof.
  revert w. induction l as [|a0 l IH]; intros w Hin Hsent Hbad.
  { by apply elem_of_nil in Hin. }
  destruct (decide (state (obj w a0) = SENT)) as [Hs|Hs].
  2:{ rewrite collect_loop_skip by done.
      apply elem_of_cons in Hin as [->|Hin]; [done|]. by apply IH. }
  rewrite collect_loop_sent by done.
  destruct (future (obj w a0)) as [f|] eqn:Hf; [|by exists AttributeError, w].
  destruct (fut w f) as [|v|e] eqn:Hfs.
  - assert (a ≠ a0) by (intros ->; naive_solver congruence).
    apply elem_of_cons in Hin as [->|Hin]; [done|]. by apply IH.
  - assert (a ≠ a0) by (intros ->; naive_solver congruence).
    apply elem_of_cons in Hin as [->|Hin]; [done|].
    destruct (IH (store_result a0 v w) Hin) as (e' & w' & Hr & Ho).
    + by rewrite obj_store_result_ne.
    + by rewrite obj_store_result_ne.
    + exists e', w'. split; [done|]. rewrite Ho. by apply obj_store_result_ne.
  - by exists e, w.
Qed.

(** The exception raised is the one of the first failed future met. *)
Lemma collect_loop_raises_first (l1 l2 : list addr) (w : Interledger) a f e :
  (∀ b, b ∈ l1 → state (obj w b) = SENT →
     ∃ g, future (obj w b) = Some g ∧ ∀ e', fut w g ≠ FFailed e') →
  state (obj w a) = SENT → future (obj w a) = Some f → fut w f = FFailed e →
  ∃ w', collect_loop (l1 ++ a :: l2) w = Raised e w' ∧ obj w' a = obj w a.
Proof.
  revert w. induction l1 as [|a0 l1 IH]; intros w Hok Hsent Hf Hfs.
  { simpl app. rewrite collect_loop_sent by done. rewrite Hf, Hfs. by exists w. }
  change ((a0 :: l1) ++ a :: l2) with (a0 :: (l1 ++ a :: l2)).
  destruct (decide (state (obj w a0) = SENT)) as [Hs|Hs].
  2:{ rewrite collect_loop_skip by done. apply IH; try done.
      intros b Hb. apply Hok. set_solver. }
  rewrite collect_loop_sent by done.
  destruct (Hok a0) as (g & Hg & Hnf); [set_solver|done|].
  rewrite Hg. destruct (fut w g) as [|v|e0] eqn:Hgs.
  - apply IH; try done. intros b Hb. apply Hok. set_solver.
  - assert (a0 ≠ a) by (intros ->; congruence).
    destruct (IH (store_result a0 v w)) as (w' & Hr & Ho).
    + intros b Hb Hst.
      assert (a0 ≠ b).
      { intros ->. rewrite obj_store_result_eq in Hst. discriminate. }
      rewrite obj_store_result_ne in Hst |- * by done.
      apply Hok; [set_solver|done].
    + by rewrite obj_store_result_ne.
    + by rewrite obj_store_result_ne.
    + done.
    + exists w'. split; [done|]. rewrite Ho. by apply obj_store_result_ne.
  - by destruct (Hnf e0).
Qed.

(** ** The wait of [transfer_result] *)

Lemma elem_of_futures w o :
  o ∈ futures w ↔ ∃ a, a ∈ transfers_sent w ∧ o = future (obj w a).
Proof.
  unfold futures. rewrite list_elem_of_fmap. naive_solver.
Qed.

Lemma existsb_handle_done w (fs : list (option fid)) :
  existsb (handle_done w) fs = true
  ↔ ∃ f, Some f ∈ fs ∧ done (fut w f) = true.
Proof.
  rewrite existsb_exists. split.
  - intros ([f|] & Hin & Hd); [|discriminate].
    exists f. split; [by apply list_elem_of_In|done].
  - intros (f & Hin & Hd). exists (Some f). split; [by apply list_elem_of_In|done].
Qed.

Lemma wait_ready_iff w (fs : list (option fid)) :
  wait_first_completed w fs = WaitReady
  ↔ fs ≠ [] ∧ (None ∉ fs) ∧ ∃ f, Some f ∈ fs ∧ done (fut w f) = true.
Proof.
  rewrite <- existsb_handle_done. unfold wait_first_completed.
  destruct fs as [|o fs]; [naive_solver|].
  case_bool_decide; [naive_solver|].
  destruct (existsb _ _); naive_solver.
Qed.

Lemma wait_blocked_iff w (fs : list (option fid)) :
  wait_first_completed w fs = WaitBlocked
  ↔ fs ≠ [] ∧ (None ∉ fs) ∧ ∀ f, Some f ∈ fs → done (fut w f) = false.
Proof.
  unfold wait_first_completed.
  destruct fs as [|o fs]; [naive_solver|].
  case_bool_decide; [naive_solver|].
  destruct (existsb _ _) eqn:He.
  - apply existsb_handle_done in He as (f & Hin & Hd).
    split; [done|]. intros (_ & _ & Hall). specialize (Hall f Hin). congruence.
  - split; [|done]. intros _. split_and!; [done|done|].
    intros f Hin. destruct (done (fut w f)) eqn:Hd; [|done].
    assert (existsb (handle_done w) (o :: fs) = true) as Hex.
    { apply existsb_handle_done. by exists f. }
    congruence.
Qed.

Lemma wait_raise_iff w (fs : list (option fid)) e :
  wait_first_completed w fs = WaitRaise e
  ↔ (fs = [] ∧ e = ValueError) ∨ (None ∈ fs ∧ e = NotAwaitable).
Proof.
  unfold wait_first_completed.
  destruct fs as [|o fs].
  - split; [naive_solver|]. intros [[_ ->]|[?%elem_of_nil _]]; done.
  - case_bool_decide; [naive_solver|].
    destruct (existsb _ _); naive_solver.
Qed.

(** ** The count [pending] *)

Lemma elem_of_active w a :
  a ∈ active w ↔ a ∈ transfers_sent w ∧ in_flight (state (obj w a)) = true.
Proof.
  unfold active. rewrite elem_of_list_to_set, list_elem_of_filter. naive_solver.
Qed.

Lemma active_ext w w' :
  transfers_sent w' = transfers_sent w →
  (∀ a, in_flight (state (obj w' a)) = in_flight (state (obj w a))) →
  active w' = active w.
Proof.
  intros Hs Ho. apply set_eq. intros a.
  rewrite !elem_of_active, Hs, Ho. done.
Qed.

Lemma active_dispatch a w :
  state (obj w a) = READY →
  active (dispatch a w) = active w ∪ {[a]} ∧ a ∉ active w.
Proof.
  intros Hr. split.
  - apply set_eq. intros x.
    rewrite elem_of_union, !elem_of_active, elem_of_singleton. simpl.
    rewrite elem_of_app, list_elem_of_singleton.
    destruct (decide (a = x)) as [->|Hne].
    + rewrite obj_dispatch_eq. simpl. naive_solver.
    + rewrite obj_dispatch_ne by done. naive_solver.
  - rewrite elem_of_active, Hr. simpl. naive_solver.
Qed.

Lemma active_finalize a w :
  state (obj w a) = COMPLETED → a ∈ transfers_sent w →
  active w = {[a]} ∪ active (finalize a w) ∧ a ∉ active (finalize a w).
Proof.
  intros Hc Hin. split.
  - apply set_eq. intros x.
    rewrite elem_of_union, !elem_of_active, elem_of_singleton. simpl.
    destruct (decide (a = x)) as [->|Hne].
    + rewrite obj_finalize_eq, Hc. simpl. naive_solver.
    + rewrite obj_finalize_ne by done. naive_solver.
  - rewrite elem_of_active, obj_finalize_eq. simpl. naive_solver.
Qed.

Lemma pending_inv_dispatch a w :
  state (obj w a) = READY → pending_inv w → pending_inv (dispatch a w).
Proof.
  intros Hr Hinv. destruct (active_dispatch a w Hr) as [Heq Hnin].
  unfold pending_inv in *. rewrite Heq. simpl pending.
  rewrite size_union by set_solver. rewrite size_singleton. lia.
Qed.

Lemma pending_inv_finalize a w :
  state (obj w a) = COMPLETED → a ∈ transfers_sent w →
  pending_inv w → pending_inv (finalize a w).
Proof.
  intros Hc Hin Hinv. destruct (active_finalize a w Hc Hin) as [Heq Hnin].
  unfold pending_inv in *. rewrite Heq in Hinv. simpl pending.
  rewrite size_union, size_singleton in Hinv by set_solver. lia.
Qed.

Lemma pending_inv_send_loop (l : list addr) (w : Interledger) :
  pending_inv w → pending_inv (foldl send_step w l).
Proof.
  revert w. induction l as [|a l IH]; intros w Hinv; [done|].
  simpl. apply IH. unfold send_step. case_decide; [|done].
  by apply pending_inv_dispatch.
Qed.

Lemma transfers_sent_process_step w a :
  transfers_sent (process_step w a) = transfers_sent w.
Proof. unfold process_step. by case_decide. Qed.

Lemma pending_inv_process_loop (l : list addr) (w : Interledger) :
  (∀ a, a ∈ l → a ∈ transfers_sent w) →
  pending_inv w → pending_inv (foldl process_step w l).
Proof.
  revert w. induction l as [|a l IH]; intros w Hsub Hinv; [done|].
  simpl. apply IH.
  - intros x Hx. rewrite transfers_sent_process_step. apply Hsub. set_solver.
  - unfold process_step. case_decide; [|done].
    apply pending_inv_finalize; [done| |done]. apply Hsub. set_solver.
Qed.

Lemma in_flight_collected v t :
  state t = SENT → in_flight (state (collected v t)) = in_flight (state t).
Proof. intros ->. done. Qed.

Lemma pending_inv_collect_loop (l : list addr) (w : Interledger) :
  pending_inv w → ends_in (collect_loop l w) pending_inv.
Proof.
  intros Hinv. eapply ends_in_impl; [|apply collect_loop_ends]. simpl.
  intros w' (_&_&_&Hs&Hp&_&_&_&Hobj).
  unfold pending_inv. rewrite Hp, Hinv. do 2 f_equal. symmetry.
  apply active_ext; [done|]. intros a.
  destruct (Hobj a) as [->|(_&Hst&f&v&_&_&->)]; [done|].
  by apply in_flight_collected.
Qed.

(** ** [StateInterledger.__init__] *)

Lemma Forall2_impl_elem {A B} (P Q : A → B → Prop) (l : list A) (k : list B) :
  Forall2 P l k → (∀ a i, a ∈ l → P a i → Q a i) → Forall2 Q l k.
Proof.
  induction 1 as [|a i l k HP HF IH]; intros HPQ; constructor.
  - apply HPQ; [set_solver|done].
  - apply IH. intros a' i' Hin. apply HPQ. set_solver.
Qed.

(** The loop of the two [restore_pending_transfers] methods creates one new
    object per identifier, in order, and leaves the objects of the store
    as they are. *)
Lemma restore_loop_spec (mk : value → Transfer) (ids : list value)
    (acc : list addr) (h : gmap addr Transfer) :
  ∃ new : list addr,
    (restore_loop mk ids acc h).1 = acc ++ new
    ∧ NoDup new
    ∧ (∀ a, a ∈ new → a ∉ dom h)
    ∧ Forall2 (λ a i, (restore_loop mk ids acc h).2 !! a = Some (mk i)) new ids
    ∧ (∀ a, a ∉ new → (restore_loop mk ids acc h).2 !! a = h !! a)
    ∧ dom (restore_loop mk ids acc h).2 = dom h ∪ list_to_set new.
Proof.
  revert acc h. induction ids as [|i ids IH]; intros acc h.
  - exists []. simpl. split_and!; try done.
    + by rewrite app_nil_r.
    + constructor.
    + set_solver.
    + set_solver.
  - simpl. set (a0 := fresh (dom h)).
    destruct (IH (acc ++ [a0]) (<[a0 := mk i]> h))
      as (new & Hl & Hnd & Hfresh & Hall & Hframe & Hdom).
    assert (Ha0 : a0 ∉ new).
    { intros Hin. apply Hfresh in Hin. rewrite dom_insert_L in Hin. set_solver. }
    exists (a0 :: new). split_and!.
    + rewrite Hl. by rewrite <- app_assoc.
    + by constructor.
    + intros a [->|Hin]%elem_of_cons; [apply is_fresh|].
      apply Hfresh in Hin. rewrite dom_insert_L in Hin. set_solver.
    + constructor; [|done]. rewrite Hframe by done. apply lookup_insert_eq.
    + intros a Ha. rewrite not_elem_of_cons in Ha. destruct Ha as [Hne Ha].
      rewrite Hframe by done. by apply lookup_insert_ne.
    + rewrite Hdom, dom_insert_L. set_solver.
Qed.

(** Equality of keys is Python's [==] on the values. *)
Lemma py_key_eq_iff (v v' : value) :
  py_key v = py_key v'
  ↔ v = v'
    ∨ (∃ b, (v = VBool b ∧ v' = VInt (if b then 1 else 0))
            ∨ (v = VInt (if b then 1 else 0) ∧ v' = VBool b)).
Proof.
  split.
  - destruct v as [|[]|z|], v' as [|[]|z'|]; simpl; intros [=]; subst;
      first [by left
            |right; exists true; naive_solver
            |right; exists false; naive_solver].
  - intros [->|[[] [[-> ->]|[-> ->]]]]; done.
Qed.

Lemma elem_of_py_keys (l : list value) k :
  k ∈ py_keys l ↔ ∃ v, v ∈ l ∧ py_key v = k.
Proof.
  unfold py_keys. rewrite elem_of_list_to_set, list_elem_of_fmap. naive_solver.
Qed.

Lemma dom_py_set (l : list value) : dom (py_set l) = py_keys l.
Proof.
  unfold py_set, py_keys. rewrite dom_list_to_map_L.
  by rewrite <- list_fmap_compose.
Qed.

Lemma py_set_lookup (l : list value) k v :
  py_set l !! k = Some v → v ∈ l ∧ py_key v = k.
Proof.
  intros H%elem_of_list_to_map_2.
  apply list_elem_of_fmap in H as (v' & [= -> ->] & Hv'). done.
Qed.

Lemma common_ids_spec (l1 l2 : list value) :
  NoDup (py_key <$> common_ids l1 l2)
  ∧ (∀ i, i ∈ common_ids l1 l2 →
          i ∈ l2 ∧ ∃ o, o ∈ l1 ∧ py_key o = py_key i)
  ∧ (∀ o i, o ∈ l1 → i ∈ l2 → py_key o = py_key i →
          ∃ i', i' ∈ common_ids l1 l2 ∧ py_key i' = py_key i)
  ∧ length (common_ids l1 l2) = size (py_keys l1 ∩ py_keys l2).
Proof.
  unfold common_ids.
  set (kept := filter (λ v, py_key v ∈ dom (py_set l1)) l2).
  assert (Hkept : ∀ v, v ∈ kept ↔ v ∈ l2 ∧ py_key v ∈ py_keys l1).
  { intros v. unfold kept. rewrite list_elem_of_filter, dom_py_set. tauto. }
  assert (Hkeys : py_key <$> (map_to_list (py_set kept)).*2
                  = (map_to_list (py_set kept)).*1).
  { rewrite <- list_fmap_compose. apply list_fmap_ext.
    intros n [k v] Hn. simpl.
    apply list_elem_of_lookup_2, elem_of_map_to_list, py_set_lookup in Hn.
    by destruct Hn. }
  split_and!.
  - rewrite Hkeys. apply NoDup_fst_map_to_list.
  - intros i ([k v] & -> & Hkv)%list_elem_of_fmap. simpl.
    apply elem_of_map_to_list, py_set_lookup in Hkv as [Hv _].
    apply Hkept in Hv as [Hv Hk]. split; [done|].
    by apply elem_of_py_keys in Hk.
  - intros o i Ho Hi Heq.
    assert (py_key i ∈ dom (py_set kept)) as [i' Hi']%elem_of_dom.
    { rewrite dom_py_set. apply elem_of_py_keys. exists i. split; [|done].
      apply Hkept. split; [done|]. apply elem_of_py_keys. by exists o. }
    exists i'. split.
    + apply list_elem_of_fmap. exists (py_key i, i'). split; [done|].
      by apply elem_of_map_to_list.
    + by apply py_set_lookup in Hi' as [_ ?].
  - rewrite length_fmap, length_map_to_list.
    rewrite <- (size_dom (D := gset value)), dom_py_set. f_equal. apply set_eq. intros k.
    rewrite elem_of_intersection, !elem_of_py_keys.
    setoid_rewrite Hkept. setoid_rewrite elem_of_py_keys. naive_solver.
Qed.

Lemma assetId_ready_transfer i : assetId (ready_transfer i) = Some i.
Proof. unfold assetId, ready_transfer. simpl. by rewrite lookup_singleton_eq. Qed.

Lemma assetId_completed_transfer i : assetId (completed_transfer i) = Some i.
Proof. unfold assetId, completed_transfer. simpl. by rewrite lookup_singleton_eq. Qed.

(** The lists and the store the state-aware constructor builds. *)
Lemma StateInterledger_init_spec ini res h fs :
  let ready_ids := common_ids (initiator_query_by_state ini TRANSFER_OUT)
                              (responder_query_by_state res NOT_HERE) in
  let sent_ids := common_ids (initiator_query_by_state ini TRANSFER_OUT)
                             (responder_query_by_state res HERE) in
  let w := StateInterledger_init ini res h fs in
  NoDup (transfers w ++ transfers_sent w)
  ∧ (∀ a, a ∈ transfers w ++ transfers_sent w → a ∉ dom h)
  ∧ Forall2 (λ a i, heap w !! a = Some (ready_transfer i)) (transfers w) ready_ids
  ∧ Forall2 (λ a i, heap w !! a = Some (completed_transfer i))
            (transfers_sent w) sent_ids
  ∧ (∀ a, a ∉ transfers w ++ transfers_sent w → heap w !! a = h !! a)
  ∧ pending w = Z.of_nat (length sent_ids)
  ∧ futs w = fs ∧ requests w = [] ∧ keep_running w = true
  ∧ results_abort w = [] ∧ results_commit w = [].
Proof.
  intros ready_ids sent_ids w. subst w.
  unfold StateInterledger_init, restore_pending_transfers_ready,
    restore_pending_transfers_sent. simpl heap.
  fold ready_ids. fold sent_ids.
  destruct (restore_loop_spec ready_transfer ready_ids [] h)
    as (pool & Hl1 & Hnd1 & Hfr1 & Hall1 & Hframe1 & Hdom1).
  destruct (restore_loop ready_transfer ready_ids [] h) as [l1 h1] eqn:E1.
  destruct (restore_loop_spec completed_transfer sent_ids [] h1)
    as (sent & Hl2 & Hnd2 & Hfr2 & Hall2 & Hframe2 & Hdom2).
  destruct (restore_loop completed_transfer sent_ids [] h1) as [l2 h2] eqn:E2.
  simpl in *. subst l1 l2.
  assert (Hdisj : ∀ a, a ∈ pool → a ∉ sent).
  { intros a Ha Hs. apply Hfr2 in Hs. rewrite Hdom1 in Hs. set_solver. }
  split_and!; try done.
  - apply NoDup_app. split_and!; done.
  - intros a [Ha|Ha]%elem_of_app; [by apply Hfr1|].
    apply Hfr2 in Ha. rewrite Hdom1 in Ha. set_solver.
  - eapply Forall2_impl_elem; [exact Hall1|].
    intros a i Hin Hh. rewrite Hframe2 by (by apply Hdisj). exact Hh.
  - intros a Ha. rewrite not_elem_of_app in Ha. destruct Ha as [Ha1 Ha2].
    rewrite Hframe2, Hframe1 by done. done.
  - rewrite (Forall2_length _ _ _ Hall2). lia.
Qed.

(** ** One action of a run *)

Lemma advances_refl s : advances s s.
Proof. by left. Qed.

Lemma ends_in_after {A} (o : outcome A) (P : Interledger → Prop) w :
  ends_in o P → P (after o w).
Proof. by destruct o. Qed.

Lemma request_addr_verdict w a : request_addr (verdict w a) = a.
Proof. unfold verdict. by destruct (truthy _). Qed.

Lemma fut_complete_done f0 s w f :
  done (fut w f) = true → fut (complete f0 s w) f = fut w f.
Proof.
  intros Hd. unfold complete. case_bool_decide as Hp; [|done].
  unfold fut in *. simpl. destruct (decide (f0 = f)) as [->|Hne].
  - rewrite lookup_total_alt, Hp in Hd. discriminate.
  - by rewrite lookup_total_insert_ne.
Qed.

(** What any single action may change: both lists only grow, and only by
    [READY] transfers for [transfers_sent]; a transfer moves by at most one
    state; a [PROCESSED] transfer is left alone and no call is issued for
    it; a transfer that has left [READY] keeps its future; and a future
    that is done stays as it is. *)
Lemma exec_step (act : action) (w : Interledger) :
  transfers w `prefix_of` transfers (exec act w)
  ∧ (∃ d, transfers_sent (exec act w) = transfers_sent w ++ d
          ∧ ∀ a, a ∈ d → state (obj w a) = READY)
  ∧ (∀ a, advances (state (obj w a)) (state (obj (exec act w) a)))
  ∧ (∀ a, state (obj w a) = PROCESSED → obj (exec act w) a = obj w a)
  ∧ (∀ a, state (obj w a) ≠ READY →
          future (obj (exec act w) a) = future (obj w a))
  ∧ (∃ rs, requests (exec act w) = requests w ++ rs
           ∧ ∀ r, r ∈ rs → state (obj w (request_addr r)) ≠ PROCESSED)
  ∧ (∀ f, done (fut w f) = true → fut (exec act w) f = fut w f)
  ∧ (∀ a, state (obj w a) = SENT → state (obj (exec act w) a) ≠ SENT →
          ∃ f, future (obj w a) = Some f ∧ done (fut w f) = true).
Proof.
  assert (Hsame : ∀ w' : Interledger,
    heap w' = heap w → requests w' = requests w →
    transfers_sent w' = transfers_sent w →
    transfers w `prefix_of` transfers w' →
    (∀ f, done (fut w f) = true → fut w' f = fut w f) →
    transfers w `prefix_of` transfers w'
    ∧ (∃ d, transfers_sent w' = transfers_sent w ++ d
          ∧ ∀ a, a ∈ d → state (obj w a) = READY)
    ∧ (∀ a, advances (state (obj w a)) (state (obj w' a)))
    ∧ (∀ a, state (obj w a) = PROCESSED → obj w' a = obj w a)
    ∧ (∀ a, state (obj w a) ≠ READY → future (obj w' a) = future (obj w a))
    ∧ (∃ rs, requests w' = requests w ++ rs
             ∧ ∀ r, r ∈ rs → state (obj w (request_addr r)) ≠ PROCESSED)
    ∧ (∀ f, done (fut w f) = true → fut w' f = fut w f)
    ∧ (∀ a, state (obj w a) = SENT → state (obj w' a) ≠ SENT →
            ∃ f, future (obj w a) = Some f ∧ done (fut w f) = true)).
  { intros w' Hh Hr Hs Ht Hf. unfold obj. rewrite Hh, Hr, Hs. split_and!.
    - done.
    - nothing_new.
    - intros a. apply advances_refl.
    - done.
    - done.
    - nothing_new.
    - done.
    - done. }
  assert (Hresume : ∀ fs,
    let w' := after (transfer_result_resume fs w) w in
    transfers w `prefix_of` transfers w'
    ∧ (∃ d, transfers_sent w' = transfers_sent w ++ d
          ∧ ∀ a, a ∈ d → state (obj w a) = READY)
    ∧ (∀ a, advances (state (obj w a)) (state (obj w' a)))
    ∧ (∀ a, state (obj w a) = PROCESSED → obj w' a = obj w a)
    ∧ (∀ a, state (obj w a) ≠ READY → future (obj w' a) = future (obj w a))
    ∧ (∃ rs, requests w' = requests w ++ rs
             ∧ ∀ r, r ∈ rs → state (obj w (request_addr r)) ≠ PROCESSED)
    ∧ (∀ f, done (fut w f) = true → fut w' f = fut w f)
    ∧ (∀ a, state (obj w a) = SENT → state (obj w' a) ≠ SENT →
            ∃ f, future (obj w a) = Some f ∧ done (fut w f) = true)).
  { intros fs. unfold transfer_result_resume.
    destruct (wait_first_completed w fs); simpl after.
    1,2: by apply Hsame.
    apply ends_in_after. eapply ends_in_impl; [|apply collect_loop_ends]. simpl.
    intros w' (Hf&Hr&Ht&Hs&_&_&_&_&Hobj). split_and!.
    + by rewrite Ht.
    + rewrite Hs. nothing_new.
    + intros a. destruct (Hobj a) as [->|(_&Hst&f&v&_&_&->)].
      * apply advances_refl.
      * rewrite Hst. by right.
    + intros a Hp. destruct (Hobj a) as [?|(_&Hst&_)]; [done|congruence].
    + intros a _. by destruct (Hobj a) as [->|(_&_&f&v&_&_&->)].
    + rewrite Hr. nothing_new.
    + intros f _. unfold fut. by rewrite Hf.
    + intros a Hst Hst'. destruct (Hobj a) as [Ho|(_&_&f&v&Hfa&Hfs&_)].
      * rewrite Ho in Hst'. done.
      * exists f. split; [done|]. by rewrite Hfs. }
  destruct act as [[e|ts]| | |fs| |f0 s|]; simpl exec.
  - (* the poll raises *)
    by apply Hsame.
  - (* the poll delivers *)
    simpl. case_bool_decide; apply Hsame; try done. by apply prefix_app_r.
  - (* send_transfer *)
    unfold send_transfer.
    destruct (send_loop_spec (transfers w) w)
      as (d & Hnd & Hd & Hsent & Hpend & Hobj & Hframe & Hfuts & rs & Hrs & Hrs').
    pose proof (send_loop_frame (transfers w) w) as (Htr & _).
    split_and!.
    + by rewrite Htr.
    + exists d. split; [done|]. intros a Ha. by apply Hd.
    + intros a. destruct (decide (a ∈ d)) as [Ha|Ha].
      * destruct (Hobj a Ha) as (f & -> & _). apply Hd in Ha as [_ ->]. by right.
      * rewrite Hframe by done. apply advances_refl.
    + intros a Hp. apply Hframe. intros [_ Hr]%Hd. congruence.
    + intros a Hnr. rewrite Hframe; [done|]. intros [_ Hr]%Hd. congruence.
    + exists rs. split; [done|]. intros r Hr.
      destruct (Hrs' r Hr) as (a & f & -> & Ha). simpl.
      apply Hd in Ha as [_ ->]. discriminate.
    + intros f Hdone. unfold fut in *. rewrite !lookup_total_alt in *.
      rewrite Hfuts; [done|]. apply elem_of_dom.
      destruct (futs w !! f); [done|discriminate].
    + intros a Hst Hst'. destruct (decide (a ∈ d)) as [Ha|Ha].
      * apply Hd in Ha as [_ Hr]. congruence.
      * rewrite Hframe in Hst' by done. done.
  - (* transfer_result *)
    apply Hresume.
  - (* transfer_result, resumed *)
    apply Hresume.
  - (* process_result *)
    unfold process_result.
    destruct (process_loop_spec (transfers_sent w) w)
      as (d & Hnd & Hd & Hreq & _ & _ & _ & Hobj & Hframe & Hf & Ht & Hs & _).
    split_and!.
    + by rewrite Ht.
    + rewrite Hs. nothing_new.
    + intros a. destruct (decide (a ∈ d)) as [Ha|Ha].
      * rewrite (Hobj a Ha). apply Hd in Ha as [_ ->]. by right.
      * rewrite Hframe by done. apply advances_refl.
    + intros a Hp. apply Hframe. intros [_ Hc]%Hd. congruence.
    + intros a _. destruct (decide (a ∈ d)) as [Ha|Ha].
      * by rewrite (Hobj a Ha).
      * by rewrite Hframe.
    + exists (verdict w <$> d). split; [done|].
      intros r (a & -> & Ha)%list_elem_of_fmap. rewrite request_addr_verdict.
      apply Hd in Ha as [_ ->]. discriminate.
    + intros f _. unfold fut. by rewrite Hf.
    + intros a Hst Hst'. destruct (decide (a ∈ d)) as [Ha|Ha].
      * apply Hd in Ha as [_ Hc]. congruence.
      * rewrite Hframe in Hst' by done. done.
  - (* a future completes *)
    apply Hsame; [unfold complete; by case_bool_decide ..|].
    intros f. apply fut_complete_done.
  - (* stop *)
    by apply Hsame.
Qed.

Lemma pending_inv_exec (act : action) (w : Interledger) :
  pending_inv w → pending_inv (exec act w).
Proof.
  intros Hinv.
  assert (Hresume : ∀ fs, pending_inv (after (transfer_result_resume fs w) w)).
  { intros fs. unfold transfer_result_resume.
    destruct (wait_first_completed w fs); simpl after; [done|done|].
    apply ends_in_after. by apply pending_inv_collect_loop. }
  destruct act as [[e|ts]| | |fs| |f0 s|]; simpl exec.
  - done.
  - simpl. by case_bool_decide.
  - by apply pending_inv_send_loop.
  - apply Hresume.
  - apply Hresume.
  - by apply pending_inv_process_loop.
  - unfold complete. by case_bool_decide.
  - done.
Qed.

Lemma handles_done_exec (act : action) (w : Interledger) :
  handles_done w → handles_done (exec act w).
Proof.
  intros Hinv a f Hin Hnr Hns Hf.
  destruct (exec_step act w)
    as (_ & (d & Hd & Hready) & Hadv & _ & Hfut & _ & Hdone & Hsent).
  rewrite Hd in Hin.
  assert (Hw : state (obj w a) ≠ READY).
  { intros Hr. destruct (Hadv a) as [Heq|Heq]; rewrite Hr in Heq.
    - congruence.
    - destruct (state (obj (exec act w) a)); done. }
  apply elem_of_app in Hin as [Hin|Hin]; [|by apply Hready in Hin].
  rewrite Hfut in Hf by done.
  destruct (decide (state (obj w a) = SENT)) as [Hs|Hs].
  - destruct (Hsent a Hs Hns) as (f' & Hf' & Hd').
    assert (f' = f) as -> by congruence.
    by rewrite Hdone.
  - rewrite Hdone; by eapply Hinv.
Qed.

(** ** Runs *)

Lemma run_actions_cons act acts w :
  run_actions (act :: acts) w = run_actions acts (exec act w).
Proof. done. Qed.

Lemma pending_inv_run (acts : list action) (w : Interledger) :
  pending_inv w → pending_inv (run_actions acts w).
Proof.
  revert w. induction acts as [|act acts IH]; intros w Hinv; [done|].
  rewrite run_actions_cons. by apply IH, pending_inv_exec.
Qed.

Lemma handles_done_run (acts : list action) (w : Interledger) :
  handles_done w → handles_done (run_actions acts w).
Proof.
  revert w. induction acts as [|act acts IH]; intros w Hinv; [done|].
  rewrite run_actions_cons. by apply IH, handles_done_exec.
Qed.

(** What a whole run may change. *)
Lemma run_actions_spec (acts : list action) (w : Interledger) :
  transfers w `prefix_of` transfers (run_actions acts w)
  ∧ (∃ d, transfers_sent (run_actions acts w) = transfers_sent w ++ d
          ∧ ∀ a, a ∈ d → state (obj w a) ≠ PROCESSED)
  ∧ (∀ a, state (obj w a) = PROCESSED → obj (run_actions acts w) a = obj w a)
  ∧ (∀ a, state (obj w a) ≠ READY →
          future (obj (run_actions acts w) a) = future (obj w a))
  ∧ (∃ rs, requests (run_actions acts w) = requests w ++ rs
           ∧ ∀ r, r ∈ rs → state (obj w (request_addr r)) ≠ PROCESSED)
  ∧ (∀ f, done (fut w f) = true → fut (run_actions acts w) f = fut w f).
Proof.
  revert w. induction acts as [|act acts IH]; intros w.
  { simpl. split_and!; try done.
    - nothing_new.
    - nothing_new. }
  rewrite run_actions_cons.
  destruct (exec_step act w)
    as (Ht1 & (d1 & Hd1 & Hready1) & Hadv1 & Hproc1 & Hfut1 & (rs1 & Hrs1 & Hreq1)
        & Hdone1 & _).
  destruct (IH (exec act w))
    as (Ht2 & (d2 & Hd2 & Hnp2) & Hproc2 & Hfut2 & (rs2 & Hrs2 & Hreq2) & Hdone2).
  assert (Hkeep : ∀ a, state (obj w a) = PROCESSED →
                       state (obj (exec act w) a) = PROCESSED).
  { intros a Hp. by rewrite Hproc1. }
  assert (Hnr : ∀ a, state (obj w a) ≠ READY → state (obj (exec act w) a) ≠ READY).
  { intros a Hn Hr. destruct (Hadv1 a) as [Heq|Heq]; rewrite Hr in Heq.
    - congruence.
    - done. }
  split_and!.
  - by etrans.
  - exists (d1 ++ d2). split.
    + by rewrite Hd2, Hd1, app_assoc.
    + intros a [Ha|Ha]%elem_of_app.
      * rewrite (Hready1 a Ha). discriminate.
      * intros Hp. by apply (Hnp2 a Ha), Hkeep.
  - intros a Hp. rewrite Hproc2 by (by apply Hkeep). by apply Hproc1.
  - intros a Hn. rewrite Hfut2 by (by apply Hnr). by apply Hfut1.
  - exists (rs1 ++ rs2). split.
    + by rewrite Hrs2, Hrs1, app_assoc.
    + intros r [Hr|Hr]%elem_of_app; [by apply Hreq1|].
      intros Hp. by apply (Hreq2 r Hr), Hkeep.
  - intros f Hd. rewrite Hdone2 by (by rewrite Hdone1). by apply Hdone1.
Qed.

Lemma trace_head (acts : list action) (w : Interledger) :
  ∃ tl, trace acts w = w :: tl.
Proof. destruct acts; simpl; eauto. Qed.

Lemma lifecycle_from (s : State) :
  ∃ tl, drop (rank s) lifecycle = s :: tl
        ∧ ∀ s', rank s' = S (rank s) → tl = drop (rank s') lifecycle.
Proof.
  destruct s; simpl; eexists; (split; [reflexivity|]);
    intros s' Hs'; destruct s'; simpl in Hs'; try discriminate; reflexivity.
Qed.

(** Along a run, the states of a transfer, repetitions removed, follow the
    lifecycle from the state it starts in. *)
Lemma changes_trace (acts : list action) (w : Interledger) (a : addr) :
  changes ((λ w', state (obj w' a)) <$> trace acts w)
    `prefix_of` drop (rank (state (obj w a))) lifecycle.
Proof.
  revert w. induction acts as [|act acts IH]; intros w.
  { simpl. destruct (lifecycle_from (state (obj w a))) as (tl & -> & _).
    by apply prefix_cons, prefix_nil. }
  specialize (IH (exec act w)).
  destruct (trace_head acts (exec act w)) as (tl & Htl).
  simpl trace. rewrite Htl in IH |- *. rewrite !fmap_cons in *.
  destruct (exec_step act w) as (_ & _ & Hadv & _).
  simpl changes. destruct (Hadv a) as [Heq|Hnext].
  - rewrite decide_True by done. by rewrite <- Heq.
  - rewrite decide_False by (intros Heq; rewrite Heq in Hnext; lia).
    destruct (lifecycle_from (state (obj w a))) as (tl' & -> & Htl').
    rewrite (Htl' _ Hnext). by apply prefix_cons.
Qed.

(** * The stage operations *)

(** A mixed batch: the first and third transfers are committed, the second
    one aborted, and nothing is left pending. *)
Example mixed_batch_outcome :
  requests mixed_batch
  = [ReqReceive 0 0; ReqReceive 1 1; ReqReceive 2 2;
     ReqCommit 0; ReqAbort 1; ReqCommit 2]
  ∧ results_commit mixed_batch = [VBool true; VBool true]
  ∧ results_abort mixed_batch = [VBool false]
  ∧ pending mixed_batch = 0
  ∧ (λ a, state (obj mixed_batch a)) <$> transfers_sent mixed_batch
    = [PROCESSED; PROCESSED; PROCESSED]
  ∧ transfers mixed_batch = [0%nat; 1%nat; 2%nat].
Proof. vm_compute. done. Qed.

(** The transfer the state-aware constructor found accepted by the
    Responder is committed by the first [process_result]. *)
Example recovered_is_committed :
  pending recovered = 1
  ∧ requests (process_result recovered) = [ReqCommit 0]
  ∧ pending (process_result recovered) = 0
  ∧ ∃ e, transfer_result recovered = Raised e recovered.
Proof. split_and!; [by vm_compute..|]. by eexists. Qed.

(** [1] and [True] are one identifier for the sets of the code, and the
    identifier recovered is the one the Responder lists. *)
Example recovery_merges_equal_ids :
  common_ids [VInt 1] [VBool true] = [VBool true]
  ∧ common_ids [VInt 1; VBool true] [VInt 1; VBool true] = [VInt 1]
  ∧ pending (StateInterledger_init (ledger_initiator [VInt 1; VBool true])
               (ledger_responder [VInt 1; VBool true] []) ∅ ∅) = 1
  ∧ (λ a, assetId (obj (StateInterledger_init (ledger_initiator [VInt 1])
                          (ledger_responder [] [VBool true]) ∅ ∅) a))
    <$> transfers (StateInterledger_init (ledger_initiator [VInt 1])
                     (ledger_responder [] [VBool true]) ∅ ∅)
    = [Some (VBool true)].
Proof. by vm_compute. Qed.

(** C8. [receive_transfer] returns the number of transfers the poll of the
    Initiator delivered and changes the engine only by appending exactly
    those transfers to [transfers]; when the poll delivers an empty list
    the count is 0 and the engine is unchanged; when the poll raises, the
    exception propagates unchanged and the engine is unchanged. *)
Theorem receive_transfer_ingest (w : Interledger) :
  (∀ ts, ∃ w',
      receive_transfer (PollDeliver ts) w = Returned (length ts) w'
      ∧ transfers w' = transfers w ++ ts
      ∧ heap w' = heap w ∧ futs w' = futs w ∧ requests w' = requests w
      ∧ transfers_sent w' = transfers_sent w ∧ pending w' = pending w
      ∧ keep_running w' = keep_running w
      ∧ results_abort w' = results_abort w
      ∧ results_commit w' = results_commit w)
  ∧ receive_transfer (PollDeliver []) w = Returned 0%nat w
  ∧ (∀ e, receive_transfer (PollRaise e) w = Raised e w).
Proof.
  split_and!; [|done|done].
  intros ts. unfold receive_transfer. case_bool_decide as Hlen.
  - eexists. split; [reflexivity|]. done.
  - exists w. destruct ts; [|simpl in Hlen; lia].
    split; [done|]. by rewrite app_nil_r.
Qed.

(** C4. One call of [process_result] handles every transfer of
    [transfers_sent] that is [COMPLETED] (the list [d]), each exactly once:
    it schedules [commit_transfer] and appends the result to
    [results_commit] when the result is true, schedules [abort_transfer]
    and appends the result to [results_abort] when it is false; either way
    the transfer becomes [PROCESSED] and [pending] decreases by one per
    transfer, at once: the new engine depends on nothing the adapter does.
    All other transfers are untouched. *)
Theorem process_result_finalize (w : Interledger) :
  ∃ d : list addr,
    NoDup d
    ∧ (∀ a, a ∈ d ↔ a ∈ transfers_sent w ∧ state (obj w a) = COMPLETED)
    ∧ requests (process_result w)
      = requests w
        ++ ((λ a, if truthy (result (obj w a)) then ReqCommit a else ReqAbort a) <$> d)
    ∧ results_commit (process_result w)
      = results_commit w
        ++ ((λ a, result (obj w a)) <$> filter (λ a, truthy (result (obj w a)) = true) d)
    ∧ results_abort (process_result w)
      = results_abort w
        ++ ((λ a, result (obj w a)) <$> filter (λ a, truthy (result (obj w a)) = false) d)
    ∧ pending (process_result w) = pending w - Z.of_nat (length d)
    ∧ (∀ a, a ∈ d → obj (process_result w) a = set_state PROCESSED (obj w a))
    ∧ (∀ a, a ∉ d → obj (process_result w) a = obj w a)
    ∧ futs (process_result w) = futs w
    ∧ transfers (process_result w) = transfers w
    ∧ transfers_sent (process_result w) = transfers_sent w
    ∧ keep_running (process_result w) = keep_running w.
Proof. apply process_loop_spec. Qed.

Lemma process_result_finalize_witness :
  obj (process_result one_completed) 1%nat
  = set_state PROCESSED (obj one_completed 1%nat)
  ∧ obj (process_result one_completed) 0%nat = obj one_completed 0%nat.
Proof.
  destruct (process_result_finalize one_completed)
    as (d & _ & Hd & _ & _ & _ & _ & Hdone & Hother & _).
  split.
  - apply Hdone, Hd. split.
    + vm_compute. apply list_elem_of_further, list_elem_of_here.
    + reflexivity.
  - apply Hother. intros [_ Hst]%Hd. vm_compute in Hst. discriminate.
Defined.

(** C3, as stated, fails: [send_transfer] never removes a transfer from
    [transfers].  The transfer of [one_ready] is [READY] and in the pool
    before the call; after it, it is still in the pool, in state [SENT]. *)
Lemma send_transfer_keeps_pool :
  (0%nat ∈ transfers one_ready ∧ state (obj one_ready 0%nat) = READY)
  ∧ ¬ (0%nat ∉ transfers (send_transfer one_ready))
  ∧ ¬ (0%nat ∈ transfers (send_transfer one_ready)
       ↔ state (obj (send_transfer one_ready) 0%nat) = READY).
Proof.
  assert (Hin : 0%nat ∈ transfers (send_transfer one_ready)).
  { vm_compute. apply list_elem_of_here. }
  split_and!.
  - vm_compute. apply list_elem_of_here.
  - reflexivity.
  - intros Hn. by apply Hn.
  - intros [Hst _]. specialize (Hst Hin). vm_compute in Hst. discriminate.
Qed.

(** C3, amended.  [send_transfer] dispatches every transfer of the pool
    that is [READY] (the list [d]), each exactly once: the transfer becomes
    [SENT], gets a new future on which [receive_transfer] of the Responder
    is scheduled, is appended to [transfers_sent] and counted in [pending].
    The pool itself is left as it is: the transfer stays in [transfers],
    and after the call no transfer of the pool is [READY]. *)
Theorem send_transfer_dispatch (w : Interledger) :
  ∃ d : list addr,
    NoDup d
    ∧ (∀ a, a ∈ d ↔ a ∈ transfers w ∧ state (obj w a) = READY)
    ∧ transfers_sent (send_transfer w) = transfers_sent w ++ d
    ∧ pending (send_transfer w) = pending w + Z.of_nat (length d)
    ∧ (∀ a, a ∈ d → ∃ f,
          obj (send_transfer w) a = set_future (Some f) (set_state SENT (obj w a))
          ∧ (f ∉ dom (futs w))
          ∧ futs (send_transfer w) !! f = Some FPending
          ∧ ReqReceive a f ∈ requests (send_transfer w))
    ∧ (∀ a, a ∉ d → obj (send_transfer w) a = obj w a)
    ∧ transfers (send_transfer w) = transfers w
    ∧ (∀ a, a ∈ transfers (send_transfer w) →
            state (obj (send_transfer w) a) ≠ READY).
Proof.
  unfold send_transfer.
  destruct (send_loop_spec (transfers w) w)
    as (d & Hnd & Hd & Hsent & Hpend & Hobj & Hframe & _).
  destruct (send_loop_frame (transfers w) w) as (Htr & _).
  exists d. split_and!; try done.
  intros a Ha. rewrite Htr in Ha.
  destruct (decide (a ∈ d)) as [Hin|Hin].
  - destruct (Hobj a Hin) as (f & -> & _). discriminate.
  - rewrite Hframe by done. intros Hr. apply Hin, Hd. done.
Qed.

Lemma send_transfer_dispatch_witness :
  ∃ f, obj (send_transfer one_ready) 0%nat
       = set_future (Some f) (set_state SENT (obj one_ready 0%nat)).
Proof.
  destruct (send_transfer_dispatch one_ready) as (d & _ & Hd & _ & _ & Hobj & _).
  destruct (Hobj 0%nat) as (f & Ho & _).
  - apply Hd. split.
    + vm_compute. apply list_elem_of_here.
    + reflexivity.
  - by exists f.
Defined.

(** C2, as stated, fails: in [one_processed] the only [SENT] transfer still
    awaits its [receive], and yet [transfer_result] returns (changing
    nothing), because the finished future of the [PROCESSED] transfer is
    among the futures it waits on. *)
Lemma transfer_result_returns_early :
  (transfers_sent one_processed ≠ []
   ∧ 0%nat ∈ transfers_sent one_processed
   ∧ state (obj one_processed 0%nat) = SENT)
  ∧ transfer_result one_processed = Returned () one_processed
  ∧ ¬ ∃ a f, a ∈ transfers_sent one_processed
             ∧ state (obj one_processed a) = SENT
             ∧ future (obj one_processed a) = Some f
             ∧ done (fut one_processed f) = true.
Proof.
  split_and!.
  - vm_compute. discriminate.
  - vm_compute. apply list_elem_of_here.
  - reflexivity.
  - vm_compute. reflexivity.
  - intros (a & f & Hin & Hst & Hf & Hd).
    assert (Hl : transfers_sent one_processed = [0%nat; 1%nat]) by (vm_compute; reflexivity).
    rewrite Hl in Hin.
    apply elem_of_cons in Hin as [->|Hin].
    + vm_compute in Hf. injection Hf as <-. vm_compute in Hd. discriminate.
    + apply list_elem_of_singleton in Hin as ->. vm_compute in Hst. discriminate.
Qed.

Lemma collect_loop_not_blocked (l : list addr) (w : Interledger) :
  collect_loop l w ≠ Blocked.
Proof.
  intros Hb. pose proof (collect_loop_ends l w) as He. by rewrite Hb in He.
Qed.

(** C2, amended.  [transfer_result] returns only after at least one of the
    futures it waits on is done; these are the receive handles of the
    transfers of [transfers_sent], in whatever state, a [PROCESSED] one
    included.  On return, every [SENT] transfer whose handle is done has
    the handle's result stored in [result] and is [COMPLETED], and every
    transfer that was not [SENT] is unchanged, as is the rest of the engine.
    It does return when the list of futures is not empty, has no [None],
    has a future that is done, and no [SENT] transfer has a missing or
    failed handle; and it stays suspended exactly as long as the list is
    not empty and all its futures are pending. *)
Theorem transfer_result_collect (w : Interledger) (fs : list (option fid)) :
  (∀ w', transfer_result_resume fs w = Returned () w' →
     (∃ f, Some f ∈ fs ∧ done (fut w f) = true)
     ∧ ((∀ o, o ∈ fs → o ∈ futures w) →
        ∃ a f, a ∈ transfers_sent w ∧ future (obj w a) = Some f
               ∧ done (fut w f) = true)
     ∧ (∀ a f, a ∈ transfers_sent w → state (obj w a) = SENT →
               future (obj w a) = Some f → done (fut w f) = true →
               ∃ v, fut w f = FDone v
                    ∧ obj w' a = set_state COMPLETED (set_result v (obj w a)))
     ∧ (∀ a, state (obj w a) ≠ SENT → obj w' a = obj w a)
     ∧ futs w' = futs w ∧ requests w' = requests w
     ∧ transfers w' = transfers w ∧ transfers_sent w' = transfers_sent w
     ∧ pending w' = pending w ∧ keep_running w' = keep_running w
     ∧ results_abort w' = results_abort w ∧ results_commit w' = results_commit w)
  ∧ (fs ≠ [] → None ∉ fs →
     (∃ f, Some f ∈ fs ∧ done (fut w f) = true) →
     (∀ a, a ∈ transfers_sent w → state (obj w a) = SENT →
           ∃ f, future (obj w a) = Some f ∧ ∀ e, fut w f ≠ FFailed e) →
     ∃ w', transfer_result_resume fs w = Returned () w')
  ∧ (transfer_result_resume fs w = Blocked
     ↔ fs ≠ [] ∧ ∀ o, o ∈ fs → ∃ f, o = Some f ∧ done (fut w f) = false)
  ∧ transfer_result w = transfer_result_resume (futures w) w.
Proof.
  split_and!; [| | |done].
  - intros w' Hret. unfold transfer_result_resume in Hret.
    destruct (wait_first_completed w fs) eqn:Hwait; try discriminate.
    apply wait_ready_iff in Hwait as (_ & _ & f0 & Hin0 & Hd0).
    pose proof (collect_loop_ends (transfers_sent w) w) as Hends.
    rewrite Hret in Hends. simpl in Hends.
    destruct Hends as (?&?&?&?&?&?&?&?&Hobj).
    split_and!; try done.
    + by exists f0.
    + intros Hsub. apply Hsub, elem_of_futures in Hin0 as (a0 & Ha0 & Hf0).
      by exists a0, f0.
    + intros a f Hin Hst Hf Hd.
      destruct (collect_loop_returned _ _ _ Hret a Hin Hst) as (f' & Hf' & Hm).
      assert (f' = f) as -> by congruence.
      destruct (fut w f) as [|v|e]; [discriminate| |done].
      by exists v.
    + intros a Hns. destruct (Hobj a) as [?|(_&?&_)]; done.
  - intros Hne Hnone Hdone Hok. unfold transfer_result_resume.
    assert (wait_first_completed w fs = WaitReady) as ->
      by (by apply wait_ready_iff).
    by apply collect_loop_returns.
  - unfold transfer_result_resume.
    destruct (wait_first_completed w fs) as [e| |] eqn:Hwait.
    + split; [discriminate|]. intros [Hne Hall].
      apply wait_raise_iff in Hwait as [[Hnil _]|[Hnone _]]; [done|].
      destruct (Hall None Hnone) as (f & Hf & _). discriminate.
    + split; [|done]. intros _.
      apply wait_blocked_iff in Hwait as (Hne & Hnone & Hall).
      split; [done|]. intros [f|] Ho; [|done].
      exists f. split; [done|]. by apply Hall.
    + split; [by intros ?%collect_loop_not_blocked|]. intros [_ Hall].
      apply wait_ready_iff in Hwait as (_ & _ & f & Hin & Hd).
      destruct (Hall (Some f) Hin) as (f' & Hf' & Hd'). congruence.
Qed.

Lemma transfer_result_collect_witness :
  ∃ v, fut one_done 1%nat = FDone v
       ∧ obj (after (transfer_result one_done) one_done) 1%nat
         = set_state COMPLETED (set_result v (obj one_done 1%nat)).
Proof.
  destruct (transfer_result_collect one_done (futures one_done))
    as (Hret & _ & _).
  destruct (Hret (after (transfer_result one_done) one_done))
    as (_ & _ & Hsent & _).
  - vm_compute. reflexivity.
  - apply (Hsent 1%nat 1%nat).
    + vm_compute. apply list_elem_of_further, list_elem_of_here.
    + reflexivity.
    + reflexivity.
    + reflexivity.
Defined.

Lemma process_result_skips (w : Interledger) (a : addr) :
  state (obj w a) ≠ COMPLETED →
  obj (process_result w) a = obj w a
  ∧ ∃ rs, requests (process_result w) = requests w ++ rs
          ∧ ∀ r, r ∈ rs → request_addr r ≠ a.
Proof.
  intros Hnc. unfold process_result.
  destruct (process_loop_spec (transfers_sent w) w)
    as (d & _ & Hd & Hreq & _ & _ & _ & _ & Hframe & _).
  assert (a ∉ d) as Hnin by (intros [_ ?]%Hd; done).
  split; [by apply Hframe|].
  exists (verdict w <$> d). split; [done|].
  intros r (b & -> & Hb)%list_elem_of_fmap. rewrite request_addr_verdict.
  by intros ->.
Qed.

(** C1, as stated, fails: the [receive] of the transfer of [failed_receive]
    has raised, and [transfer_result] raises that exception in turn; no
    result is recorded, the transfer stays [SENT], and the [process_result]
    that follows schedules no abort for it. *)
Lemma failed_receive_not_recorded :
  (0%nat ∈ transfers_sent failed_receive
   ∧ state (obj failed_receive 0%nat) = SENT
   ∧ future (obj failed_receive 0%nat) = Some 0%nat
   ∧ fut failed_receive 0%nat = FFailed (AdapterError "receive failed"))
  ∧ transfer_result failed_receive
    = Raised (AdapterError "receive failed") failed_receive
  ∧ result (obj (after (transfer_result failed_receive) failed_receive) 0%nat)
    ≠ VBool false
  ∧ state (obj (after (transfer_result failed_receive) failed_receive) 0%nat)
    ≠ COMPLETED
  ∧ ReqAbort 0%nat
    ∉ requests (process_result (after (transfer_result failed_receive) failed_receive)).
Proof.
  split_and!; try (vm_compute; done).
  - vm_compute. apply list_elem_of_here.
  - vm_compute. intros H. apply list_elem_of_singleton in H. discriminate.
Qed.

(** C1, amended.  When the receive handle of a [SENT] transfer of
    [transfers_sent] has completed exceptionally, [transfer_result] never
    returns and records no result: it raises as soon as its wait is over
    (at once, when the handle is among the futures it waits on), with the
    exception of the handle when no [SENT] transfer before this one has a
    missing or failed handle.  The transfer stays as it was, [SENT] and
    without result; the [process_result] that follows leaves it alone and
    schedules neither [abort_transfer] nor [commit_transfer] for it. *)
Theorem failed_receive_stays_sent (w : Interledger) (fs : list (option fid))
    (a : addr) (f : fid) (e : exn) :
  a ∈ transfers_sent w → state (obj w a) = SENT →
  future (obj w a) = Some f → fut w f = FFailed e →
  (∀ w', transfer_result_resume fs w ≠ Returned () w')
  ∧ (∀ e' w', transfer_result_resume fs w = Raised e' w' →
       obj w' a = obj w a
       ∧ obj (process_result w') a = obj w a
       ∧ ∃ rs, requests (process_result w') = requests w ++ rs
               ∧ ∀ r, r ∈ rs → request_addr r ≠ a)
  ∧ (Some f ∈ fs → ∃ e' w', transfer_result_resume fs w = Raised e' w')
  ∧ (∃ e' w', transfer_result w = Raised e' w')
  ∧ (∀ l1 l2 e' w', transfer_result_resume fs w = Raised e' w' →
       fs ≠ [] → None ∉ fs → transfers_sent w = l1 ++ a :: l2 →
       (∀ b, b ∈ l1 → state (obj w b) = SENT →
             ∃ g, future (obj w b) = Some g ∧ ∀ e0, fut w g ≠ FFailed e0) →
       e' = e).
Proof.
  intros Hin Hst Hf Hfs.
  destruct (collect_loop_raises (transfers_sent w) w a Hin Hst)
    as (e1 & w1 & Hr1 & _).
  { right. by exists f, e. }
  assert (Hraises : ∀ fs', Some f ∈ fs' →
            ∃ e' w', transfer_result_resume fs' w = Raised e' w').
  { intros fs' Hfut. unfold transfer_result_resume.
    destruct (wait_first_completed w fs') as [e0| |] eqn:Hwait.
    - by exists e0, w.
    - apply wait_blocked_iff in Hwait as (_ & _ & Hall).
      specialize (Hall f Hfut). rewrite Hfs in Hall. discriminate.
    - by exists e1, w1. }
  split_and!.
  - intros w' Hret. unfold transfer_result_resume in Hret.
    destruct (wait_first_completed w fs); congruence.
  - intros e' w' Hr.
    assert (obj w' a = obj w a ∧ requests w' = requests w) as [Ho Hreq].
    { unfold transfer_result_resume in Hr.
      destruct (wait_first_completed w fs); [by injection Hr as _ <-|done|].
      pose proof (collect_loop_ends (transfers_sent w) w) as Hends.
      rewrite Hr in Hends. simpl in Hends.
      destruct Hends as (_ & Hreq & _ & _ & _ & _ & _ & _ & Hobj).
      split; [|done].
      destruct (Hobj a) as [?|(_ & _ & f' & v & Hf' & Hfs' & _)]; [done|].
      congruence. }
    destruct (process_result_skips w' a) as (Ho' & rs & Hrs & Hrs').
    { rewrite Ho, Hst. discriminate. }
    rewrite Ho', Hrs, Hreq. split_and!; try done. by exists rs.
  - apply Hraises.
  - apply Hraises, elem_of_futures. by exists a.
  - intros l1 l2 e' w' Hr Hne Hnone Hl Hok.
    unfold transfer_result_resume in Hr.
    destruct (wait_first_completed w fs) as [e0| |] eqn:Hwait; [|done|].
    + apply wait_raise_iff in Hwait as [[? _]|[? _]]; done.
    + destruct (collect_loop_raises_first l1 l2 w a f e) as (w'' & Hr'' & _);
        try done.
      rewrite <- Hl in Hr''. congruence.
Qed.

Lemma failed_receive_stays_sent_witness :
  ∃ e' w',
    transfer_result failed_receive = Raised e' w'
    ∧ obj w' 0%nat = obj failed_receive 0%nat
    ∧ obj (process_result w') 0%nat = obj failed_receive 0%nat.
Proof.
  destruct (failed_receive_stays_sent failed_receive (futures failed_receive)
              0%nat 0%nat (AdapterError "receive failed"))
    as (_ & Hkeep & _ & (e' & w' & Hr) & _).
  - vm_compute. apply list_elem_of_here.
  - reflexivity.
  - reflexivity.
  - reflexivity.
  - exists e', w'. destruct (Hkeep e' w' Hr) as (Ho & Hp & _). done.
Defined.

(** * The state-aware constructor *)

(** The objects created for a list of identifiers that are pairwise
    different for [==]: one per identifier, and no other. *)
Lemma restored_exactly_one (h : gmap addr Transfer) (mk : value → Transfer)
    (l : list addr) (ids : list value) :
  (∀ i, assetId (mk i) = Some i) → NoDup (py_key <$> ids) →
  Forall2 (λ a i, h !! a = Some (mk i)) l ids →
  (∀ i, i ∈ ids →
     ∃ a, a ∈ l ∧ h !!! a = mk i
          ∧ ∀ a' j, a' ∈ l → assetId (h !!! a') = Some j →
                    py_key j = py_key i → a' = a)
  ∧ (∀ a, a ∈ l → ∃ i, i ∈ ids ∧ h !!! a = mk i).
Proof.
  intros Hid Hnd Hall. split.
  - intros i (k & Hk)%list_elem_of_lookup.
    destruct (Forall2_lookup_r _ _ _ _ _ Hall Hk) as (a & Ha & Hh).
    exists a. split_and!.
    + by eapply list_elem_of_lookup_2.
    + by apply lookup_total_correct.
    + intros a' j (k' & Hk')%list_elem_of_lookup Hasset Hkey.
      destruct (Forall2_lookup_l _ _ _ _ _ Hall Hk') as (i' & Hi' & Hh').
      rewrite (lookup_total_correct _ _ _ Hh'), Hid in Hasset.
      injection Hasset as ->.
      assert (k' = k) as ->.
      { eapply NoDup_lookup; [exact Hnd| |].
        - rewrite list_lookup_fmap, Hi'. simpl. by rewrite Hkey.
        - by rewrite list_lookup_fmap, Hk. }
      congruence.
  - intros a (k & Hk)%list_elem_of_lookup.
    destruct (Forall2_lookup_l _ _ _ _ _ Hall Hk) as (i & Hi & Hh).
    exists i. split.
    + by eapply list_elem_of_lookup_2.
    + by apply lookup_total_correct.
Qed.

(** C6. After [StateInterledger.__init__], for every asset identifier that
    the Initiator reports as [TRANSFER_OUT] and the Responder as [HERE],
    [transfers_sent] holds exactly one transfer with that [assetId]; it is
    [COMPLETED] with result [True].  [transfers_sent] holds no other
    transfer, all its transfers are new objects, and [pending] has been
    incremented by the number of such identifiers.  Identifiers are
    compared the way the sets of the code compare them, with [==]: an
    identifier [o] of the Initiator and an identifier [i] of the Responder
    are one when [py_key o = py_key i], and the [assetId] of the transfer
    is the identifier as the Responder lists it. *)
Theorem restore_sent_is_inflight (ini : StateInitiator) (res : StateResponder)
    (h : gmap addr Transfer) (fs : gmap fid fut_state) :
  let out := initiator_query_by_state ini TRANSFER_OUT in
  let here := responder_query_by_state res HERE in
  let w := StateInterledger_init ini res h fs in
  (∀ o i, o ∈ out → i ∈ here → py_key o = py_key i →
     ∃ a j, a ∈ transfers_sent w
            ∧ assetId (obj w a) = Some j
            ∧ j ∈ here ∧ py_key j = py_key i
            ∧ state (obj w a) = COMPLETED
            ∧ result (obj w a) = VBool true
            ∧ ∀ a' j', a' ∈ transfers_sent w → assetId (obj w a') = Some j' →
                       py_key j' = py_key i → a' = a)
  ∧ NoDup (transfers_sent w)
  ∧ (∀ a, a ∈ transfers_sent w →
          ∃ o i, o ∈ out ∧ i ∈ here ∧ py_key o = py_key i
                 ∧ obj w a = completed_transfer i)
  ∧ (∀ a, a ∈ transfers_sent w → a ∉ dom h)
  ∧ length (transfers_sent w) = size (py_keys out ∩ py_keys here)
  ∧ pending w
    = pending (Interledger_init h fs)
      + Z.of_nat (size (py_keys out ∩ py_keys here)).
Proof.
  intros out here w.
  destruct (StateInterledger_init_spec ini res h fs)
    as (Hnd & Hnew & _ & Hall & _ & Hpend & _).
  fold w in Hnd, Hnew, Hall, Hpend. fold out here in Hall, Hpend.
  destruct (common_ids_spec out here) as (Hndi & Hsub & Hcov & Hlen).
  destruct (restored_exactly_one (heap w) completed_transfer
              (transfers_sent w) (common_ids out here))
    as (Hone & Honly); [apply assetId_completed_transfer|done|done|].
  apply NoDup_app in Hnd as (_ & _ & Hnd).
  split_and!.
  - intros o i Ho Hh Heq.
    destruct (Hcov o i Ho Hh Heq) as (j & Hj & Hji).
    destruct (Hone j Hj) as (a & Ha & Hobj & Huniq).
    exists a, j. unfold obj. rewrite Hobj.
    split_and!; [done|apply assetId_completed_transfer| |done|done|done|].
    + by apply Hsub in Hj as [? _].
    + intros a' j' Ha' Hid' Hk. apply (Huniq a' j' Ha' Hid'). congruence.
  - done.
  - intros a Ha. destruct (Honly a Ha) as (i & Hi & Hobj).
    apply Hsub in Hi as (Hi & o & Ho & Hoi). by exists o, i.
  - intros a Ha. apply Hnew. set_solver.
  - by rewrite (Forall2_length _ _ _ Hall).
  - rewrite Hpend, Hlen. simpl. lia.
Qed.

Lemma restore_sent_is_inflight_witness :
  ∃ a j, a ∈ transfers_sent
               (StateInterledger_init (ledger_initiator [VStr "X"; VInt 1])
                  (ledger_responder [VBool true; VStr "X"] []) ∅ ∅)
         ∧ assetId (obj (StateInterledger_init
                           (ledger_initiator [VStr "X"; VInt 1])
                           (ledger_responder [VBool true; VStr "X"] []) ∅ ∅) a)
           = Some j
         ∧ py_key j = py_key (VBool true).
Proof.
  destruct (restore_sent_is_inflight (ledger_initiator [VStr "X"; VInt 1])
              (ledger_responder [VBool true; VStr "X"] []) ∅ ∅) as (Hone & _).
  destruct (Hone (VInt 1) (VBool true)) as (a & j & Ha & Hid & _ & Hk & _).
  - simpl. apply list_elem_of_further, list_elem_of_here.
  - simpl. apply list_elem_of_here.
  - reflexivity.
  - by exists a, j.
Defined.

(** C7. After [StateInterledger.__init__], for every asset identifier that
    the Initiator reports as [TRANSFER_OUT] and the Responder as
    [NOT_HERE], [transfers] holds exactly one transfer with that [assetId],
    and it is [READY]; [transfers] holds no other transfer.  In particular,
    for [TRANSFER_OUT = {X, Y}] and [NOT_HERE = {Y, Z}] the pool holds
    exactly one transfer, [READY] and with [assetId = Y].  Identifiers and
    sets are compared the way the code compares them, with [==]: [o] and
    [i] are one identifier when [py_key o = py_key i], and the [assetId] of
    the transfer is the identifier as the Responder lists it. *)
Theorem restore_ready_is_pool (ini : StateInitiator) (res : StateResponder)
    (h : gmap addr Transfer) (fs : gmap fid fut_state) :
  let out := initiator_query_by_state ini TRANSFER_OUT in
  let not_here := responder_query_by_state res NOT_HERE in
  let w := StateInterledger_init ini res h fs in
  (∀ o i, o ∈ out → i ∈ not_here → py_key o = py_key i →
     ∃ a j, a ∈ transfers w
            ∧ assetId (obj w a) = Some j
            ∧ j ∈ not_here ∧ py_key j = py_key i
            ∧ state (obj w a) = READY
            ∧ ∀ a' j', a' ∈ transfers w → assetId (obj w a') = Some j' →
                       py_key j' = py_key i → a' = a)
  ∧ NoDup (transfers w)
  ∧ (∀ a, a ∈ transfers w →
          ∃ o i, o ∈ out ∧ i ∈ not_here ∧ py_key o = py_key i
                 ∧ obj w a = ready_transfer i)
  ∧ length (transfers w) = size (py_keys out ∩ py_keys not_here)
  ∧ (∀ X Y Z : value, py_key X ≠ py_key Z →
       py_keys out = {[py_key X; py_key Y]} →
       py_keys not_here = {[py_key Y; py_key Z]} →
       ∃ a j, transfers w = [a]
              ∧ state (obj w a) = READY
              ∧ assetId (obj w a) = Some j
              ∧ j ∈ not_here ∧ py_key j = py_key Y).
Proof.
  intros out not_here w.
  destruct (StateInterledger_init_spec ini res h fs)
    as (Hnd & Hnew & Hall & _).
  fold w in Hnd, Hnew, Hall. fold out not_here in Hall.
  destruct (common_ids_spec out not_here) as (Hndi & Hsub & Hcov & Hlen).
  destruct (restored_exactly_one (heap w) ready_transfer
              (transfers w) (common_ids out not_here))
    as (Hone & Honly); [apply assetId_ready_transfer|done|done|].
  apply NoDup_app in Hnd as (Hnd & _ & _).
  assert (Hsize : length (transfers w) = size (py_keys out ∩ py_keys not_here)).
  { by rewrite (Forall2_length _ _ _ Hall). }
  split_and!.
  - intros o i Ho Hh Heq.
    destruct (Hcov o i Ho Hh Heq) as (j & Hj & Hji).
    destruct (Hone j Hj) as (a & Ha & Hobj & Huniq).
    exists a, j. unfold obj. rewrite Hobj.
    split_and!; [done|apply assetId_ready_transfer| |done|done|].
    + by apply Hsub in Hj as [? _].
    + intros a' j' Ha' Hid' Hk. apply (Huniq a' j' Ha' Hid'). congruence.
  - done.
  - intros a Ha. destruct (Honly a Ha) as (i & Hi & Hobj).
    apply Hsub in Hi as (Hi & o & Ho & Hoi). by exists o, i.
  - done.
  - intros X Y Z Hne Hout Hnot.
    assert (py_keys out ∩ py_keys not_here = {[py_key Y]}) as Hcap.
    { rewrite Hout, Hnot. set_solver. }
    rewrite Hcap, size_singleton in Hsize.
    destruct (transfers w) as [|a [|a' l]] eqn:Hl; try discriminate.
    exists a.
    destruct (Honly a) as (j & Hj & Hobj); [apply list_elem_of_here|].
    apply Hsub in Hj as (Hj & o & Ho & Hoj).
    exists j. unfold obj. rewrite Hobj.
    split_and!; [done|done|apply assetId_ready_transfer|done|].
    assert (py_key j ∈ py_keys out ∩ py_keys not_here) as Hin.
    { apply elem_of_intersection. split; apply elem_of_py_keys; eauto. }
    rewrite Hcap in Hin. by apply elem_of_singleton in Hin.
Qed.

Lemma restore_ready_is_pool_witness :
  ∃ a j, transfers
           (StateInterledger_init (ledger_initiator [VStr "X"; VInt 0])
              (ledger_responder [] [VBool false; VStr "Z"]) ∅ ∅) = [a]
         ∧ state (obj (StateInterledger_init
                         (ledger_initiator [VStr "X"; VInt 0])
                         (ledger_responder [] [VBool false; VStr "Z"]) ∅ ∅) a)
           = READY
         ∧ assetId (obj (StateInterledger_init
                           (ledger_initiator [VStr "X"; VInt 0])
                           (ledger_responder [] [VBool false; VStr "Z"]) ∅ ∅) a)
           = Some j
         ∧ j ∈ [VBool false; VStr "Z"] ∧ py_key j = py_key (VInt 0).
Proof.
  destruct (restore_ready_is_pool (ledger_initiator [VStr "X"; VInt 0])
              (ledger_responder [] [VBool false; VStr "Z"]) ∅ ∅)
    as (_ & _ & _ & _ & Hxyz).
  apply (Hxyz (VStr "X") (VInt 0) (VStr "Z")).
  - discriminate.
  - unfold py_keys. simpl. set_solver.
  - unfold py_keys. simpl. set_solver.
Defined.

(** * Invariants of a run *)

(** X19. A transfer of [transfers_sent] without handle, such as those the
    state-aware constructor creates, makes every later [transfer_result]
    raise and leave the engine as it is: [None] stays in the list of
    futures, which [asyncio.wait] refuses.  The class of the exception is
    the interpreter's ([TypeError] up to CPython 3.10, [AttributeError]
    from 3.11 on) and is left open. *)
Lemma missing_handle_raises (acts : list action) (w : Interledger) (a : addr) :
  a ∈ transfers_sent w → state (obj w a) ≠ READY → future (obj w a) = None →
  ∃ e, transfer_result (run_actions acts w) = Raised e (run_actions acts w).
Proof.
  intros Hin Hnr Hf. exists NotAwaitable.
  destruct (run_actions_spec acts w) as (_ & (d & Hd & _) & _ & Hfut & _).
  assert (Hnone : None ∈ futures (run_actions acts w)).
  { apply elem_of_futures. exists a. split; [rewrite Hd; set_solver|].
    by rewrite Hfut. }
  unfold transfer_result, transfer_result_resume, wait_first_completed.
  destruct (futures (run_actions acts w)) as [|o fs] eqn:Hfs.
  - by apply elem_of_nil in Hnone.
  - by rewrite bool_decide_eq_true_2.
Qed.

Lemma pending_inv_init h fs : pending_inv (Interledger_init h fs).
Proof.
  unfold pending_inv.
  assert (active (Interledger_init h fs) = ∅) as -> by done.
  by rewrite size_empty.
Qed.

(** What the state-aware constructor puts in [transfers_sent]. *)
Lemma state_init_sent ini res h fs :
  NoDup (transfers_sent (StateInterledger_init ini res h fs))
  ∧ (∀ a, a ∈ transfers_sent (StateInterledger_init ini res h fs) →
          ∃ i, obj (StateInterledger_init ini res h fs) a = completed_transfer i)
  ∧ pending (StateInterledger_init ini res h fs)
    = Z.of_nat (length (transfers_sent (StateInterledger_init ini res h fs))).
Proof.
  destruct (StateInterledger_init_spec ini res h fs)
    as (Hnd & _ & _ & Hall & _ & Hpend & _).
  apply NoDup_app in Hnd as (_ & _ & Hnd).
  split_and!.
  - done.
  - intros a (k & Hk)%list_elem_of_lookup.
    destruct (Forall2_lookup_l _ _ _ _ _ Hall Hk) as (i & _ & Hh).
    exists i. by apply lookup_total_correct.
  - rewrite Hpend. by rewrite (Forall2_length _ _ _ Hall).
Qed.

Lemma pending_inv_state_init ini res h fs :
  pending_inv (StateInterledger_init ini res h fs).
Proof.
  destruct (state_init_sent ini res h fs) as (Hnd & Honly & Hpend).
  unfold pending_inv. rewrite Hpend.
  f_equal. rewrite <- (size_list_to_set (C:=gset nat)) by done.
  f_equal. apply set_eq. intros a.
  rewrite elem_of_active, elem_of_list_to_set.
  split; [|by intros [? _]]. intros Ha. split; [done|].
  destruct (Honly a Ha) as (i & ->). done.
Qed.

(** C5. [pending] is the number of transfers of [transfers_sent] that are
    [SENT] or [COMPLETED]: this holds after either constructor, every
    action of a run (each stage operation run to its end, whether it
    returns or raises) preserves it, and so it holds at every point between
    two actions of a run, in particular on entry to and on exit from every
    iteration of the main loop. *)
Theorem pending_counts_in_flight :
  (∀ h fs, pending_inv (Interledger_init h fs))
  ∧ (∀ ini res h fs, pending_inv (StateInterledger_init ini res h fs))
  ∧ (∀ act w, pending_inv w → pending_inv (exec act w))
  ∧ (∀ acts w, pending_inv w → pending_inv (run_actions acts w))
  ∧ (∀ acts h fs,
       pending (run_actions acts (Interledger_init h fs))
       = Z.of_nat (size (active (run_actions acts (Interledger_init h fs)))))
  ∧ (∀ acts ini res h fs,
       pending (run_actions acts (StateInterledger_init ini res h fs))
       = Z.of_nat
           (size (active (run_actions acts (StateInterledger_init ini res h fs))))).
Proof.
  split_and!.
  - apply pending_inv_init.
  - apply pending_inv_state_init.
  - apply pending_inv_exec.
  - apply pending_inv_run.
  - intros acts h fs. apply pending_inv_run, pending_inv_init.
  - intros acts ini res h fs. apply pending_inv_run, pending_inv_state_init.
Qed.

Lemma pending_counts_in_flight_witness :
  pending_inv one_done ∧ pending_inv (exec ActResult one_done)
  ∧ pending_inv (run_actions [ActResult; ActProcess] one_done).
Proof.
  assert (Hinv : pending_inv one_done) by (vm_compute; reflexivity).
  destruct pending_counts_in_flight as (_ & _ & Hexec & Hrun & _).
  split_and!.
  - exact Hinv.
  - apply Hexec, Hinv.
  - apply Hrun, Hinv.
Defined.

(** C9, as stated, fails for the transfers the state-aware constructor puts
    in [transfers_sent]: they are created [COMPLETED], so the states of the
    transfer of [recovered] are [COMPLETED], [PROCESSED], which is not a
    prefix of [READY], [SENT], [COMPLETED], [PROCESSED]. *)
Lemma recovered_transfer_starts_completed :
  transfers_sent recovered = [0%nat]
  ∧ (λ w', state (obj w' 0%nat)) <$> trace [ActProcess] recovered
    = [COMPLETED; PROCESSED]
  ∧ ¬ (changes ((λ w', state (obj w' 0%nat)) <$> trace [ActProcess] recovered)
         `prefix_of` [READY; SENT; COMPLETED; PROCESSED]).
Proof.
  split_and!.
  - vm_compute. reflexivity.
  - vm_compute. reflexivity.
  - intros [k Hk]. vm_compute in Hk. discriminate.
Qed.

(** C9, amended.  Over any run, the states a transfer takes follow [READY],
    [SENT], [COMPLETED], [PROCESSED] from the state the transfer starts in
    (a prefix of the four for a transfer that starts [READY]; the transfers
    the state-aware constructor puts in [transfers_sent] start
    [COMPLETED]): every action leaves the state of a transfer as it is or
    moves it to the next state, never backwards and never past a state.  A
    transfer that is [PROCESSED] is never changed again: it keeps its
    handle, no call is issued for it, and it is not appended to
    [transfers_sent] again. *)
Theorem transfer_states_follow_lifecycle :
  (∀ act w a, advances (state (obj w a)) (state (obj (exec act w) a)))
  ∧ (∀ acts w a,
       changes ((λ w', state (obj w' a)) <$> trace acts w)
         `prefix_of` drop (rank (state (obj w a))) lifecycle)
  ∧ (∀ acts w a, state (obj w a) = READY →
       changes ((λ w', state (obj w' a)) <$> trace acts w)
         `prefix_of` [READY; SENT; COMPLETED; PROCESSED])
  ∧ (∀ acts w a, state (obj w a) = PROCESSED →
       obj (run_actions acts w) a = obj w a
       ∧ (∃ rs, requests (run_actions acts w) = requests w ++ rs
                ∧ ∀ r, r ∈ rs → request_addr r ≠ a)
       ∧ (∃ d, transfers_sent (run_actions acts w) = transfers_sent w ++ d
               ∧ a ∉ d)).
Proof.
  split_and!.
  - intros act w a. by destruct (exec_step act w) as (_ & _ & Hadv & _).
  - apply changes_trace.
  - intros acts w a Hr. pose proof (changes_trace acts w a) as Hp.
    by rewrite Hr in Hp.
  - intros acts w a Hp.
    destruct (run_actions_spec acts w)
      as (_ & (d & Hd & Hnp) & Hproc & _ & (rs & Hrs & Hreq) & _).
    split_and!.
    + by apply Hproc.
    + exists rs. split; [done|]. intros r Hr Heq. apply (Hreq r Hr). by rewrite Heq.
    + exists d. split; [done|]. intros Ha. by apply (Hnp a Ha).
Qed.

Lemma transfer_states_follow_lifecycle_witness :
  changes ((λ w', state (obj w' 1%nat))
             <$> trace [ActSend; ActComplete 1%nat (FDone (VBool true));
                        ActResult; ActProcess; ActSend; ActResult]
                   (exec (ActReceive (PollDeliver [0%nat; 1%nat]))
                      (Interledger_init two_transfers ∅)))
    `prefix_of` [READY; SENT; COMPLETED; PROCESSED]
  ∧ obj (run_actions [ActSend; ActResult; ActProcess] one_processed) 1%nat
    = obj one_processed 1%nat.
Proof.
  destruct transfer_states_follow_lifecycle as (_ & _ & Hready & Hproc).
  split.
  - apply Hready. reflexivity.
  - apply Hproc. reflexivity.
Defined.

(** C10. No action removes an element from [transfers] or from
    [transfers_sent]: both lists only grow by appending, over every action
    and every run.  A [PROCESSED] transfer of [transfers_sent] therefore
    stays there, [PROCESSED] and with the same handle, and this handle is
    among the futures [transfer_result] waits on at any later point; a
    handle that is done stays done.  In a run from either constructor, the
    handle (when there is one) of every transfer of [transfers_sent] that
    is past [SENT] is done. *)
Theorem lists_only_grow :
  (∀ act w, transfers w `prefix_of` transfers (exec act w)
            ∧ transfers_sent w `prefix_of` transfers_sent (exec act w))
  ∧ (∀ acts w, transfers w `prefix_of` transfers (run_actions acts w)
               ∧ transfers_sent w `prefix_of` transfers_sent (run_actions acts w))
  ∧ (∀ acts w a, a ∈ transfers_sent w → state (obj w a) = PROCESSED →
       a ∈ transfers_sent (run_actions acts w)
       ∧ state (obj (run_actions acts w) a) = PROCESSED
       ∧ future (obj (run_actions acts w) a) = future (obj w a)
       ∧ future (obj w a) ∈ futures (run_actions acts w)
       ∧ ∀ f, future (obj w a) = Some f → done (fut w f) = true →
              done (fut (run_actions acts w) f) = true)
  ∧ (∀ acts h fs, handles_done (run_actions acts (Interledger_init h fs)))
  ∧ (∀ acts ini res h fs,
       handles_done (run_actions acts (StateInterledger_init ini res h fs))).
Proof.
  split_and!.
  - intros act w. destruct (exec_step act w) as (Ht & (d & Hd & _) & _).
    split; [done|]. rewrite Hd. by apply prefix_app_r.
  - intros acts w. destruct (run_actions_spec acts w) as (Ht & (d & Hd & _) & _).
    split; [done|]. rewrite Hd. by apply prefix_app_r.
  - intros acts w a Hin Hp.
    destruct (run_actions_spec acts w)
      as (_ & (d & Hd & _) & Hproc & _ & _ & Hdone).
    assert (Hin' : a ∈ transfers_sent (run_actions acts w)).
    { rewrite Hd. set_solver. }
    split_and!.
    + done.
    + by rewrite Hproc.
    + by rewrite Hproc.
    + apply elem_of_futures. exists a. split; [done|]. by rewrite Hproc.
    + intros f _ Hd'. by rewrite Hdone.
  - intros acts h fs. apply handles_done_run.
    intros a f Hin. by apply elem_of_nil in Hin.
  - intros acts ini res h fs. apply handles_done_run.
    intros a f Hin _ _ Hf.
    destruct (state_init_sent ini res h fs) as (_ & Honly & _).
    destruct (Honly a Hin) as (i & Hobj).
    rewrite Hobj in Hf. discriminate.
Qed.

Lemma lists_only_grow_witness :
  1%nat ∈ transfers_sent (run_actions [ActSend; ActResult; ActProcess] one_processed)
  ∧ future (obj one_processed 1%nat)
    ∈ futures (run_actions [ActSend; ActResult; ActProcess] one_processed).
Proof.
  destruct lists_only_grow as (_ & _ & Hstay & _).
  destruct (Hstay [ActSend; ActResult; ActProcess] one_processed 1%nat)
    as (Hin & _ & _ & Hfut & _).
  - vm_compute. apply list_elem_of_further, list_elem_of_here.
  - reflexivity.
  - by split.
Defined.

(** * Further properties of the stage operations *)

(** ** Proving an invariant of the engine *)

(** A property kept by the elementary updates of the four stages, each
    taken where the stage makes it, is kept by every action and every
    run. *)
Section invariant.
Variable P : Interledger → Prop.
Hypothesis P_extend : ∀ ts w, P w → P (extend_transfers ts w).
Hypothesis P_dispatch : ∀ a w,
  a ∈ transfers w → state (obj w a) = READY → P w → P (dispatch a w).
Hypothesis P_store : ∀ a v f w,
  a ∈ transfers_sent w → state (obj w a) = SENT →
  future (obj w a) = Some f → fut w f = FDone v →
  P w → P (store_result a v w).
Hypothesis P_finalize : ∀ a w,
  a ∈ transfers_sent w → state (obj w a) = COMPLETED →
  P w → P (finalize a w).
Hypothesis P_complete : ∀ f s w,
  futs w !! f = Some FPending → P w → P (complete f s w).
Hypothesis P_stop : ∀ w, P w → P (stop w).

Lemma invariant_send_loop (l : list addr) (w : Interledger) :
  (∀ a, a ∈ l → a ∈ transfers w) → P w → P (foldl send_step w l).
Proof using P_dispatch.
  clear P_extend P_store P_finalize P_complete P_stop.
  revert w. induction l as [|a l IH]; intros w Hsub HP; [done|].
  simpl. unfold send_step at 2. case_decide as Hr.
  - apply IH; [|apply P_dispatch; [set_solver|done|done]].
    intros x Hx. simpl. set_solver.
  - apply IH; [set_solver|done].
Qed.

Lemma invariant_process_loop (l : list addr) (w : Interledger) :
  (∀ a, a ∈ l → a ∈ transfers_sent w) → P w → P (foldl process_step w l).
Proof using P_finalize.
  clear P_extend P_dispatch P_store P_complete P_stop.
  revert w. induction l as [|a l IH]; intros w Hsub HP; [done|].
  simpl. unfold process_step at 2. case_decide as Hc.
  - apply IH; [|apply P_finalize; [set_solver|done|done]].
    intros x Hx. simpl. set_solver.
  - apply IH; [set_solver|done].
Qed.

Lemma invariant_collect_loop (l : list addr) (w : Interledger) :
  (∀ a, a ∈ l → a ∈ transfers_sent w) → P w → ends_in (collect_loop l w) P.
Proof using P_store.
  clear P_extend P_dispatch P_finalize P_complete P_stop.
  revert w. induction l as [|a l IH]; intros w Hsub HP; [done|].
  destruct (decide (state (obj w a) = SENT)) as [Hs|Hs].
  2:{ rewrite collect_loop_skip by done. apply IH; [set_solver|done]. }
  rewrite collect_loop_sent by done.
  destruct (future (obj w a)) as [f|] eqn:Hf; [|done].
  destruct (fut w f) as [|v|e] eqn:Hfs; [|  |done].
  - apply IH; [set_solver|done].
  - apply IH; [simpl; set_solver|].
    eapply P_store; [set_solver|done..].
Qed.

Lemma invariant_resume (fs : list (option fid)) (w : Interledger) :
  P w → P (after (transfer_result_resume fs w) w).
Proof using P_store.
  clear P_extend P_dispatch P_finalize P_complete P_stop.
  intros HP. unfold transfer_result_resume.
  destruct (wait_first_completed w fs); simpl after; [done|done|].
  apply ends_in_after. by apply invariant_collect_loop.
Qed.

Lemma invariant_exec (act : action) (w : Interledger) :
  P w → P (exec act w).
Proof using All.
  intros HP. destruct act as [[e|ts]| | |fs| |f s|]; simpl exec.
  - done.
  - simpl. case_bool_decide; [by apply P_extend|done].
  - by apply invariant_send_loop.
  - by apply invariant_resume.
  - by apply invariant_resume.
  - by apply invariant_process_loop.
  - unfold complete. case_bool_decide as Hp; [|done].
    pose proof (P_complete f s w Hp HP) as HP'. unfold complete in HP'.
    by rewrite bool_decide_eq_true_2 in HP'.
  - by apply P_stop.
Qed.

Lemma invariant_run (acts : list action) (w : Interledger) :
  P w → P (run_actions acts w).
Proof using All.
  revert w. induction acts as [|act acts IH]; intros w HP; [done|].
  rewrite run_actions_cons. by apply IH, invariant_exec.
Qed.
End invariant.

(** ** The invariants, step by step *)

Lemma obj_complete f s w a : obj (complete f s w) a = obj w a.
Proof. unfold complete. by case_bool_decide. Qed.

Lemma transfers_sent_complete f s w :
  transfers_sent (complete f s w) = transfers_sent w.
Proof. unfold complete. by case_bool_decide. Qed.

Lemma requests_complete f s w : requests (complete f s w) = requests w.
Proof. unfold complete. by case_bool_decide. Qed.

Lemma fut_dispatch_done a w g :
  done (fut w g) = true → fut (dispatch a w) g = fut w g.
Proof.
  intros Hd. unfold fut in *. simpl.
  rewrite lookup_total_insert_ne; [done|]. intros <-.
  rewrite lookup_total_alt in Hd.
  pose proof (fresh_fut_not_in_dom w) as Hn. apply not_elem_of_dom in Hn.
  rewrite Hn in Hd. discriminate.
Qed.

Lemma sent_wf_dispatch a w :
  state (obj w a) = READY → sent_wf w → sent_wf (dispatch a w).
Proof.
  intros Hr [Hnd Hnr].
  assert (a ∉ transfers_sent w) as Hnin by (intros ?%Hnr; done).
  split; simpl.
  - apply NoDup_app. split_and!; [done| |apply NoDup_singleton].
    intros x Hx Heq%list_elem_of_singleton. by subst.
  - intros x Hx. destruct (decide (a = x)) as [->|Hne].
    + by rewrite obj_dispatch_eq.
    + rewrite obj_dispatch_ne by done. apply Hnr. set_solver.
Qed.

Lemma sent_wf_store a v w : sent_wf w → sent_wf (store_result a v w).
Proof.
  intros [Hnd Hnr]. split; [done|]. simpl. intros x Hx.
  destruct (decide (a = x)) as [->|Hne].
  - by rewrite obj_store_result_eq.
  - rewrite obj_store_result_ne by done. by apply Hnr.
Qed.

Lemma sent_wf_finalize a w : sent_wf w → sent_wf (finalize a w).
Proof.
  intros [Hnd Hnr]. split; [done|]. simpl. intros x Hx.
  destruct (decide (a = x)) as [->|Hne].
  - by rewrite obj_finalize_eq.
  - rewrite obj_finalize_ne by done. by apply Hnr.
Qed.

Lemma sent_wf_run (acts : list action) (w : Interledger) :
  sent_wf w → sent_wf (run_actions acts w).
Proof.
  apply invariant_run.
  - done.
  - intros a w' _. apply sent_wf_dispatch.
  - intros a v f w' _ _ _ _. apply sent_wf_store.
  - intros a w' _ _. apply sent_wf_finalize.
  - intros f s w' _ [Hnd Hnr]. split.
    + by rewrite transfers_sent_complete.
    + intros a. rewrite transfers_sent_complete, obj_complete. apply Hnr.
  - done.
Qed.

Lemma log_inv_dispatch a w :
  state (obj w a) = READY → log_inv w → log_inv (dispatch a w).
Proof.
  intros Hr [Hnd Hlog]. split; simpl.
  - rewrite fmap_app. apply NoDup_app. split_and!; [done| |apply NoDup_singleton].
    intros t (r & -> & Hin)%list_elem_of_fmap ?%list_elem_of_singleton.
    destruct (Hlog r Hin) as [_ Hm].
    destruct r as [b g|b|b]; simplify_eq/=. by destruct Hm.
  - intros r [Hin|Heq%list_elem_of_singleton]%elem_of_app; [|subst r].
    + destruct (Hlog r Hin) as [Hs Hm]. split; [set_solver|].
      assert (request_addr r ≠ a) as Hne.
      { intros <-. destruct r; simpl in *; destruct Hm; congruence. }
      destruct r as [b g|b|b]; simpl in *; by rewrite obj_dispatch_ne.
    + simpl. split; [set_solver|]. by rewrite obj_dispatch_eq.
Qed.

Lemma log_inv_store a v w :
  state (obj w a) = SENT → log_inv w → log_inv (store_result a v w).
Proof.
  intros Hs [Hnd Hlog]. split; [done|]. simpl.
  intros r Hin. destruct (Hlog r Hin) as [Hsent Hm]. split; [done|].
  destruct (decide (request_addr r = a)) as [<-|Hne].
  - destruct r as [b g|b|b]; simpl in *.
    + rewrite obj_store_result_eq. simpl. by destruct Hm.
    + destruct Hm. congruence.
    + destruct Hm. congruence.
  - destruct r as [b g|b|b]; simpl in *; by rewrite obj_store_result_ne.
Qed.

Lemma log_inv_finalize a w :
  a ∈ transfers_sent w → state (obj w a) = COMPLETED →
  log_inv w → log_inv (finalize a w).
Proof.
  intros Ha Hc [Hnd Hlog]. split; simpl.
  - rewrite fmap_app. apply NoDup_app. split_and!; [done| |apply NoDup_singleton].
    intros t (r & -> & Hin)%list_elem_of_fmap Ht%list_elem_of_singleton.
    destruct (Hlog r Hin) as [_ Hm].
    destruct (truthy (result (obj w a))); destruct r as [b g|b|b];
      simplify_eq/=; destruct Hm; congruence.
  - intros r [Hin|Heq%list_elem_of_singleton]%elem_of_app; [|subst r].
    + destruct (Hlog r Hin) as [Hs Hm]. split; [done|].
      destruct (decide (request_addr r = a)) as [<-|Hne].
      * destruct r as [b g|b|b]; simpl in *.
        -- rewrite obj_finalize_eq. simpl. by destruct Hm.
        -- destruct Hm. congruence.
        -- destruct Hm. congruence.
      * destruct r as [b g|b|b]; simpl in *; by rewrite obj_finalize_ne.
    + destruct (truthy (result (obj w a))) eqn:Htr; simpl;
        rewrite obj_finalize_eq; simpl; done.
Qed.

Lemma log_inv_run (acts : list action) (w : Interledger) :
  log_inv w → log_inv (run_actions acts w).
Proof.
  apply invariant_run.
  - done.
  - intros a w' _. apply log_inv_dispatch.
  - intros a v f w' _ Hs _ _. by apply log_inv_store.
  - intros a w'. apply log_inv_finalize.
  - intros f s w' _ [Hnd Hlog]. split.
    + by rewrite requests_complete.
    + intros r. rewrite requests_complete, transfers_sent_complete.
      intros Hin. destruct (Hlog r Hin) as [? Hm]. split; [done|].
      destruct r; by rewrite obj_complete.
  - done.
Qed.

Lemma handle_result_inv_run (acts : list action) (w : Interledger) :
  handle_result_inv w → handle_result_inv (run_actions acts w).
Proof.
  apply invariant_run.
  - done.
  - intros a w' _ Hr Hinv x f. simpl. intros Hx Hst Hf.
    destruct (decide (a = x)) as [->|Hne].
    { rewrite obj_dispatch_eq in Hst. simpl in Hst. by destruct Hst. }
    rewrite obj_dispatch_ne in Hst, Hf |- * by done.
    assert (x ∈ transfers_sent w') as Hx' by set_solver.
    specialize (Hinv x f Hx' Hst Hf).
    rewrite fut_dispatch_done; [done|]. by rewrite Hinv.
  - intros a v f0 w' _ Hs Hf0 Hfs Hinv x f. simpl. intros Hx Hst Hf.
    change (fut (store_result a v w') f) with (fut w' f).
    destruct (decide (a = x)) as [->|Hne].
    + rewrite obj_store_result_eq in Hf |- *. simpl in *. congruence.
    + rewrite obj_store_result_ne in Hst, Hf |- * by done. by apply Hinv.
  - intros a w' _ Hc Hinv x f. simpl. intros Hx Hst Hf.
    change (fut (finalize a w') f) with (fut w' f).
    destruct (decide (a = x)) as [->|Hne].
    + rewrite obj_finalize_eq in Hf |- *. simpl in *. apply Hinv; auto.
    + rewrite obj_finalize_ne in Hst, Hf |- * by done. by apply Hinv.
  - intros f0 s w' _ Hinv x f.
    rewrite transfers_sent_complete, !obj_complete. intros Hx Hst Hf.
    specialize (Hinv x f Hx Hst Hf).
    rewrite fut_complete_done; [done|]. by rewrite Hinv.
  - done.
Qed.

Lemma accounts_inv_run (acts : list action) (w : Interledger) :
  accounts_inv w → accounts_inv (run_actions acts w).
Proof.
  apply invariant_run.
  - done.
  - intros a w' _ _ (Hlen & Hc & Ha). split_and!; try done. simpl.
    rewrite length_app. simpl. lia.
  - done.
  - intros a w' _ _ (Hlen & Hc & Ha). unfold accounts_inv. simpl.
    destruct (truthy (result (obj w' a))) eqn:Htr.
    + split_and!; [rewrite length_app; simpl; lia| |done].
      apply Forall_app. split; [done|]. by apply Forall_singleton.
    + split_and!; [rewrite length_app; simpl; lia|done|].
      apply Forall_app. split; [done|]. by apply Forall_singleton.
  - intros f s w' _. unfold complete. by case_bool_decide.
  - done.
Qed.

Lemma dispatched_inv_run (acts : list action) (w : Interledger) :
  dispatched_inv w → dispatched_inv (run_actions acts w).
Proof.
  apply invariant_run.
  - intros ts w' Hinv a Ha. destruct (Hinv a Ha) as [? ?].
    split; [done|]. simpl. set_solver.
  - intros a w' Hin _ Hinv x. simpl. intros Hx.
    destruct (decide (a = x)) as [->|Hne].
    + rewrite obj_dispatch_eq. simpl. eauto.
    + rewrite obj_dispatch_ne by done. apply Hinv. set_solver.
  - intros a v f w' _ _ _ _ Hinv x. simpl. intros Hx.
    destruct (Hinv x Hx) as [? ?]. split; [|done].
    destruct (decide (a = x)) as [->|Hne].
    + by rewrite obj_store_result_eq.
    + by rewrite obj_store_result_ne.
  - intros a w' _ _ Hinv x. simpl. intros Hx.
    destruct (Hinv x Hx) as [? ?]. split; [|done].
    destruct (decide (a = x)) as [->|Hne].
    + by rewrite obj_finalize_eq.
    + by rewrite obj_finalize_ne.
  - intros f s w' _ Hinv x. unfold complete. case_bool_decide; apply Hinv.
  - done.
Qed.

(** ** The invariants after construction *)

Lemma constructed_requests w : constructed w → requests w = [].
Proof.
  intros [h fs|ini res h fs]; [done|].
  by destruct (StateInterledger_init_spec ini res h fs)
    as (_ & _ & _ & _ & _ & _ & _ & ? & _).
Qed.

Lemma constructed_sent_wf w : constructed w → sent_wf w.
Proof.
  intros [h fs|ini res h fs].
  - split; [constructor|]. by intros a ?%elem_of_nil.
  - destruct (state_init_sent ini res h fs) as (Hnd & Honly & _).
    split; [done|]. intros a Ha. by destruct (Honly a Ha) as (i & ->).
Qed.

Lemma constructed_log_inv w : constructed w → log_inv w.
Proof.
  intros Hc. unfold log_inv. rewrite (constructed_requests w Hc).
  split; [constructor|]. by intros r ?%elem_of_nil.
Qed.

Lemma constructed_handle_result_inv w : constructed w → handle_result_inv w.
Proof.
  intros [h fs|ini res h fs] a f Ha _ Hf.
  - by apply elem_of_nil in Ha.
  - destruct (state_init_sent ini res h fs) as (_ & Honly & _).
    destruct (Honly a Ha) as (i & Ho). rewrite Ho in Hf. discriminate.
Qed.

Lemma constructed_accounts_inv w : constructed w → accounts_inv w.
Proof.
  intros [h fs|ini res h fs].
  - split_and!; [done|constructor|constructor].
  - destruct (state_init_sent ini res h fs) as (_ & _ & Hp).
    destruct (StateInterledger_init_spec ini res h fs)
      as (_ & _ & _ & _ & _ & _ & _ & _ & _ & Ha & Hc).
    unfold accounts_inv. rewrite Hp, Ha, Hc. split_and!; [simpl; lia|constructor..].
Qed.

(** * Further theorems on runs *)

(** X1. In every run from either constructor, [transfers_sent] never lists
    a transfer twice and never lists a [READY] transfer: a transfer is
    dispatched at most once, and a recovered transfer is never dispatched
    again. *)
Theorem transfers_sent_lists_each_once (acts : list action) (w : Interledger) :
  constructed w →
  NoDup (transfers_sent (run_actions acts w))
  ∧ ∀ a, a ∈ transfers_sent (run_actions acts w) →
         state (obj (run_actions acts w) a) ≠ READY.
Proof. intros Hc. by apply sent_wf_run, constructed_sent_wf. Qed.

Lemma transfers_sent_lists_each_once_witness :
  NoDup (transfers_sent one_processed)
  ∧ ∀ a, a ∈ transfers_sent one_processed → state (obj one_processed a) ≠ READY.
Proof.
  apply (transfers_sent_lists_each_once
           [ActReceive (PollDeliver [0%nat; 1%nat]); ActSend;
            ActComplete 1%nat (FDone (VBool true)); ActResult; ActProcess]
           (Interledger_init two_transfers ∅)).
  apply constructed_plain.
Defined.

(** X2. In every run from either constructor, the engine calls
    [receive_transfer] of the Responder at most once per transfer, and at
    most one of [commit_transfer] and [abort_transfer] of the Initiator,
    at most once. *)
Theorem calls_are_issued_once (acts : list action) (w : Interledger) :
  constructed w →
  NoDup (request_tag <$> requests (run_actions acts w))
  ∧ NoDup (requests (run_actions acts w))
  ∧ (∀ a f g, ReqReceive a f ∈ requests (run_actions acts w) →
              ReqReceive a g ∈ requests (run_actions acts w) → f = g)
  ∧ (∀ a, ReqCommit a ∈ requests (run_actions acts w) →
          ReqAbort a ∉ requests (run_actions acts w)).
Proof.
  intros Hc.
  destruct (log_inv_run acts w (constructed_log_inv w Hc)) as [Hnd Hlog].
  split_and!.
  - done.
  - by eapply NoDup_fmap_1.
  - intros a f g Hf Hg.
    destruct (Hlog _ Hf) as (_ & _ & Hf'). destruct (Hlog _ Hg) as (_ & _ & Hg').
    congruence.
  - intros a Hcom Habo.
    destruct (Hlog _ Hcom) as (_ & _ & Ht). destruct (Hlog _ Habo) as (_ & _ & Hf).
    congruence.
Qed.

Lemma calls_are_issued_once_witness : NoDup (requests mixed_batch).
Proof.
  apply (calls_are_issued_once
           [ActReceive (PollDeliver [0%nat; 1%nat; 2%nat]); ActSend;
            ActComplete 0%nat (FDone (VBool true));
            ActComplete 1%nat (FDone (VBool false));
            ActComplete 2%nat (FDone (VBool true));
            ActResult; ActProcess]
           (Interledger_init
              {[ 0%nat := Transfer_init; 1%nat := Transfer_init;
                 2%nat := Transfer_init ]} ∅)).
  apply constructed_plain.
Defined.

(** X3. In every run from either constructor, every call in the log is
    about a transfer of [transfers_sent]; the transfer of a receive call is
    past [READY] and holds the future of that call; the transfer of a
    commit is [PROCESSED] with a true result, the one of an abort is
    [PROCESSED] with a false result; and the result of a transfer that is
    [COMPLETED] or [PROCESSED] is the value its own receive handle holds,
    whatever the order in which the handles completed. *)
Theorem calls_match_transfers (acts : list action) (w : Interledger) :
  constructed w →
  (∀ r, r ∈ requests (run_actions acts w) →
     request_addr r ∈ transfers_sent (run_actions acts w)
     ∧ match r with
       | ReqReceive a f =>
           state (obj (run_actions acts w) a) ≠ READY
           ∧ future (obj (run_actions acts w) a) = Some f
       | ReqCommit a =>
           state (obj (run_actions acts w) a) = PROCESSED
           ∧ truthy (result (obj (run_actions acts w) a)) = true
       | ReqAbort a =>
           state (obj (run_actions acts w) a) = PROCESSED
           ∧ truthy (result (obj (run_actions acts w) a)) = false
       end)
  ∧ (∀ a f, a ∈ transfers_sent (run_actions acts w) →
       state (obj (run_actions acts w) a) = COMPLETED
       ∨ state (obj (run_actions acts w) a) = PROCESSED →
       future (obj (run_actions acts w) a) = Some f →
       fut (run_actions acts w) f = FDone (result (obj (run_actions acts w) a))).
Proof.
  intros Hc. split.
  - by destruct (log_inv_run acts w (constructed_log_inv w Hc)) as [_ Hlog].
  - by apply handle_result_inv_run, constructed_handle_result_inv.
Qed.

Lemma calls_match_transfers_witness :
  fut mixed_batch 1%nat = FDone (result (obj mixed_batch 1%nat))
  ∧ state (obj mixed_batch 1%nat) = PROCESSED.
Proof.
  destruct (calls_match_transfers
              [ActReceive (PollDeliver [0%nat; 1%nat; 2%nat]); ActSend;
               ActComplete 0%nat (FDone (VBool true));
               ActComplete 1%nat (FDone (VBool false));
               ActComplete 2%nat (FDone (VBool true));
               ActResult; ActProcess]
              (Interledger_init
                 {[ 0%nat := Transfer_init; 1%nat := Transfer_init;
                    2%nat := Transfer_init ]} ∅))
    as [Hlog Hres]; [apply constructed_plain|].
  split.
  - apply Hres.
    + vm_compute. apply list_elem_of_further, list_elem_of_here.
    + right. reflexivity.
    + reflexivity.
  - destruct (Hlog (ReqAbort 1%nat)) as (_ & Hst & _); [|exact Hst].
    vm_compute. do 4 apply list_elem_of_further. apply list_elem_of_here.
Defined.

(** X4. In every run from either constructor, every transfer of
    [transfers_sent] is counted exactly once, in [pending] or in one of the
    two lists of results; [results_commit] holds true results only and
    [results_abort] false ones only. *)
Theorem transfers_are_accounted_for (acts : list action) (w : Interledger) :
  constructed w →
  Z.of_nat (length (transfers_sent (run_actions acts w)))
  = pending (run_actions acts w)
    + Z.of_nat (length (results_commit (run_actions acts w)))
    + Z.of_nat (length (results_abort (run_actions acts w)))
  ∧ Forall (λ v, truthy v = true) (results_commit (run_actions acts w))
  ∧ Forall (λ v, truthy v = false) (results_abort (run_actions acts w)).
Proof. intros Hc. by apply accounts_inv_run, constructed_accounts_inv. Qed.

Lemma transfers_are_accounted_for_witness :
  Z.of_nat (length (transfers_sent one_processed))
  = pending one_processed
    + Z.of_nat (length (results_commit one_processed))
    + Z.of_nat (length (results_abort one_processed)).
Proof.
  apply (transfers_are_accounted_for
           [ActReceive (PollDeliver [0%nat; 1%nat]); ActSend;
            ActComplete 1%nat (FDone (VBool true)); ActResult; ActProcess]
           (Interledger_init two_transfers ∅)).
  apply constructed_plain.
Defined.

(** ** What makes [transfer_result] raise *)

Lemma collect_loop_raised (l : list addr) (w w' : Interledger) (e : exn) :
  collect_loop l w = Raised e w' →
  ∃ a, a ∈ l ∧ state (obj w a) = SENT
       ∧ (future (obj w a) = None ∧ e = AttributeError
          ∨ ∃ f, future (obj w a) = Some f ∧ fut w f = FFailed e).
Proof.
  revert w. induction l as [|a0 l IH]; intros w Hr; [discriminate|].
  destruct (decide (state (obj w a0) = SENT)) as [Hs|Hs].
  2:{ rewrite collect_loop_skip in Hr by done.
      destruct (IH w Hr) as (a & Ha & ?). exists a. split; [set_solver|done]. }
  rewrite collect_loop_sent in Hr by done.
  destruct (future (obj w a0)) as [f|] eqn:Hf.
  2:{ injection Hr as <- <-. exists a0. split_and!; [set_solver|done|by left]. }
  destruct (fut w f) as [|v|e0] eqn:Hfs.
  - destruct (IH w Hr) as (a & Ha & ?). exists a. split; [set_solver|done].
  - destruct (IH _ Hr) as (a & Ha & Hst & Hbad).
    assert (a0 ≠ a).
    { intros ->. rewrite obj_store_result_eq in Hst. discriminate. }
    rewrite obj_store_result_ne in Hst, Hbad by done.
    exists a. split; [set_solver|done].
  - injection Hr as <- <-. exists a0. split_and!; [set_solver|done|].
    right. by exists f.
Qed.

(** X5. [transfer_result] raises in three cases only: [ValueError] when it
    is called with [transfers_sent] empty; the exception of [asyncio.wait]
    when a transfer of [transfers_sent] has no receive handle, the engine
    being left as it is in both cases; and the exception of the failed
    receive handle of a [SENT] transfer.  The class of the exception of the
    second case is the interpreter's ([TypeError] up to CPython 3.10,
    [AttributeError] from 3.11 on) and is left open.  In a run from the
    plain constructor every transfer of [transfers_sent] has a handle, so
    the second case does not occur. *)
Theorem transfer_result_raises_only (w w' : Interledger) (e : exn) :
  transfer_result w = Raised e w' →
  (transfers_sent w = [] ∧ e = ValueError ∧ w' = w)
  ∨ ((∃ a, a ∈ transfers_sent w ∧ future (obj w a) = None) ∧ w' = w)
  ∨ ((∀ a, a ∈ transfers_sent w → is_Some (future (obj w a)))
     ∧ ∃ a f, a ∈ transfers_sent w ∧ state (obj w a) = SENT
              ∧ future (obj w a) = Some f ∧ fut w f = FFailed e).
Proof.
  unfold transfer_result, transfer_result_resume.
  destruct (wait_first_completed w (futures w)) as [e0| |] eqn:Hwait;
    [|discriminate|].
  - intros [= <- <-].
    apply wait_raise_iff in Hwait as [[Hnil ->]|[Hnone ->]].
    + left. split; [|done]. unfold futures in Hnil.
      by destruct (transfers_sent w).
    + right; left. split; [|done].
      apply elem_of_futures in Hnone as (a & Ha & Hf). by exists a.
  - intros Hr. right; right.
    apply wait_ready_iff in Hwait as (_ & Hnone & _).
    assert (Hall : ∀ a, a ∈ transfers_sent w → is_Some (future (obj w a))).
    { intros a Ha. destruct (future (obj w a)) eqn:Hf; [done|].
      destruct Hnone. apply elem_of_futures. by exists a. }
    split; [done|].
    destruct (collect_loop_raised _ _ _ _ Hr) as (a & Ha & Hst & [[Hf _]|Hbad]).
    + destruct (Hall a Ha) as [f Hf']. congruence.
    + destruct Hbad as (f & Hf & Hfs). by exists a, f.
Qed.

Lemma transfer_result_raises_only_witness :
  (transfers_sent failed_receive = []
   ∧ AdapterError "receive failed" = ValueError
   ∧ failed_receive = failed_receive)
  ∨ ((∃ a, a ∈ transfers_sent failed_receive
           ∧ future (obj failed_receive a) = None)
     ∧ failed_receive = failed_receive)
  ∨ ((∀ a, a ∈ transfers_sent failed_receive
           → is_Some (future (obj failed_receive a)))
     ∧ ∃ a f, a ∈ transfers_sent failed_receive
              ∧ state (obj failed_receive a) = SENT
              ∧ future (obj failed_receive a) = Some f
              ∧ fut failed_receive f = FFailed (AdapterError "receive failed")).
Proof.
  apply (transfer_result_raises_only failed_receive failed_receive
           (AdapterError "receive failed")).
  vm_compute. reflexivity.
Defined.

(** X6. In a run from the plain constructor, every transfer of
    [transfers_sent] has a receive handle and is a transfer of the pool, so
    [transfer_result] never raises for a missing handle there: it raises only
    [ValueError] on an empty [transfers_sent], or the exception of the
    failed handle of a [SENT] transfer. *)
Theorem plain_engine_has_handles (acts : list action)
    (h : gmap addr Transfer) (fs : gmap fid fut_state) :
  (∀ a, a ∈ transfers_sent (run_actions acts (Interledger_init h fs)) →
        is_Some (future (obj (run_actions acts (Interledger_init h fs)) a))
        ∧ a ∈ transfers (run_actions acts (Interledger_init h fs)))
  ∧ (∀ e w', transfer_result (run_actions acts (Interledger_init h fs))
             = Raised e w' →
       (transfers_sent (run_actions acts (Interledger_init h fs)) = []
        ∧ e = ValueError)
       ∨ ∃ a f, a ∈ transfers_sent (run_actions acts (Interledger_init h fs))
                ∧ state (obj (run_actions acts (Interledger_init h fs)) a) = SENT
                ∧ future (obj (run_actions acts (Interledger_init h fs)) a) = Some f
                ∧ fut (run_actions acts (Interledger_init h fs)) f = FFailed e).
Proof.
  assert (Hinv : dispatched_inv (run_actions acts (Interledger_init h fs))).
  { apply dispatched_inv_run. by intros a ?%elem_of_nil. }
  split; [exact Hinv|].
  intros e w'. unfold transfer_result, transfer_result_resume.
  destruct (wait_first_completed _ _) as [e0| |] eqn:Hwait; [|discriminate|].
  - intros [= <- <-].
    apply wait_raise_iff in Hwait as [[Hnil ->]|[Hnone ->]].
    + left. split; [|done]. unfold futures in Hnil.
      by destruct (transfers_sent _).
    + apply elem_of_futures in Hnone as (a & Ha & Hf).
      destruct (Hinv a Ha) as [[f Hf'] _]. congruence.
  - intros Hr. right.
    destruct (collect_loop_raised _ _ _ _ Hr) as (a & Ha & Hst & [[Hf _]|Hbad]).
    + destruct (Hinv a Ha) as [[f Hf'] _]. congruence.
    + destruct Hbad as (f & Hf & Hfs). by exists a, f.
Qed.

Lemma plain_engine_has_handles_witness :
  (transfers_sent failed_receive = [] ∧ AdapterError "receive failed" = ValueError)
  ∨ ∃ a f, a ∈ transfers_sent failed_receive
           ∧ state (obj failed_receive a) = SENT
           ∧ future (obj failed_receive a) = Some f
           ∧ fut failed_receive f = FFailed (AdapterError "receive failed").
Proof.
  destruct (plain_engine_has_handles
              [ActReceive (PollDeliver [0%nat]); ActSend;
               ActComplete 0%nat (FFailed (AdapterError "receive failed"))]
              two_transfers ∅) as [_ Hraise].
  apply (Hraise _ failed_receive). vm_compute. reflexivity.
Defined.

(** ** A failed receive holds up the transfers behind it *)

Lemma collect_loop_wedged (l1 l2 : list addr) (w : Interledger) a f e :
  state (obj w a) = SENT → future (obj w a) = Some f → fut w f = FFailed e →
  ∃ e' w', collect_loop (l1 ++ a :: l2) w = Raised e' w'
           ∧ ∀ b, b ∉ l1 → obj w' b = obj w b.
Proof.
  revert w. induction l1 as [|a0 l1 IH]; intros w Hs Hf Hfs.
  { simpl app. rewrite collect_loop_sent by done. rewrite Hf, Hfs. by exists e, w. }
  change ((a0 :: l1) ++ a :: l2) with (a0 :: (l1 ++ a :: l2)).
  destruct (decide (state (obj w a0) = SENT)) as [Hs0|Hs0].
  2:{ rewrite collect_loop_skip by done.
      destruct (IH w Hs Hf Hfs) as (e' & w' & Hr & Hframe).
      exists e', w'. split; [done|]. intros b Hb. apply Hframe. set_solver. }
  rewrite collect_loop_sent by done.
  destruct (future (obj w a0)) as [f0|] eqn:Hf0; [|by exists AttributeError, w].
  destruct (fut w f0) as [|v|e0] eqn:Hfs0.
  - destruct (IH w Hs Hf Hfs) as (e' & w' & Hr & Hframe).
    exists e', w'. split; [done|]. intros b Hb. apply Hframe. set_solver.
  - assert (a0 ≠ a) by (intros ->; congruence).
    destruct (IH (store_result a0 v w)) as (e' & w' & Hr & Hframe).
    { by rewrite obj_store_result_ne. }
    { by rewrite obj_store_result_ne. }
    { done. }
    exists e', w'. split; [done|]. intros b Hb.
    rewrite not_elem_of_cons in Hb. destruct Hb as [Hne Hb].
    rewrite Hframe by done. by apply obj_store_result_ne.
  - by exists e0, w.
Qed.

Lemma held_up_exec l1 a f e b v (act : action) (w : Interledger) :
  b ∉ l1 → held_up l1 a f e b v w → held_up l1 a f e b v (exec act w).
Proof.
  intros Hb.
  assert (Hresume : ∀ fs, held_up l1 a f e b v w →
            held_up l1 a f e b v (after (transfer_result_resume fs w) w)).
  { intros fs Hinv. unfold transfer_result_resume.
    destruct (wait_first_completed w fs); simpl after; [done|done|].
    destruct Hinv as ((l2 & Hl) & Hs & Hf & Hfs & Hsb & Hrb & Hcb & Hab).
    destruct (collect_loop_wedged l1 l2 w a f e Hs Hf Hfs)
      as (e' & w' & Hr & Hframe).
    pose proof (collect_loop_ends (transfers_sent w) w) as Hends.
    rewrite Hl in Hends |- *. rewrite Hr in Hends |- *. simpl in Hends |- *.
    destruct Hends as (Hfu & Hreq & _ & Hsent & _ & _ & _ & _ & Hobj).
    assert (obj w' a = obj w a) as Ha.
    { destruct (Hobj a) as [?|(_ & _ & f' & v' & Hf' & Hfs' & _)]; [done|].
      congruence. }
    unfold held_up. rewrite Hsent, Hreq, Ha, (Hframe b Hb).
    split_and!; try done; [by exists l2|]. unfold fut. by rewrite Hfu. }
  intros Hinv. destruct act as [[e0|ts]| | |fs| |f0 s|]; simpl exec.
  - done.
  - simpl. by case_bool_decide.
  - unfold send_transfer.
    apply (invariant_send_loop (held_up l1 a f e b v)); [|done|done].
    clear w Hinv Hresume.
    intros x w _ Hr ((l2 & Hl) & Hs & Hf & Hfs & Hsb & Hrb & Hcb & Hab).
    assert (x ≠ a) by (intros ->; congruence).
    unfold held_up. simpl. rewrite obj_dispatch_ne by done.
    rewrite fut_dispatch_done by (by rewrite Hfs).
    split_and!; try done.
    + exists (l2 ++ [x]). rewrite Hl. by rewrite <- app_assoc.
    + destruct (decide (x = b)) as [->|Hne].
      * right. by rewrite obj_dispatch_eq.
      * by rewrite obj_dispatch_ne.
    + destruct (decide (x = b)) as [->|Hne].
      * by rewrite obj_dispatch_eq.
      * by rewrite obj_dispatch_ne.
    + rewrite elem_of_app, list_elem_of_singleton. naive_solver.
    + rewrite elem_of_app, list_elem_of_singleton. naive_solver.
  - by apply Hresume.
  - by apply Hresume.
  - unfold process_result.
    apply (invariant_process_loop (held_up l1 a f e b v)); [|done|done].
    clear w Hinv Hresume.
    intros x w _ Hc ((l2 & Hl) & Hs & Hf & Hfs & Hsb & Hrb & Hcb & Hab).
    assert (x ≠ a) by (intros ->; congruence).
    assert (x ≠ b) by (intros ->; destruct Hsb; congruence).
    unfold held_up. simpl. rewrite !obj_finalize_ne by done.
    split_and!; try done.
    + by exists l2.
    + rewrite elem_of_app, list_elem_of_singleton.
      destruct (truthy _); naive_solver.
    + rewrite elem_of_app, list_elem_of_singleton.
      destruct (truthy _); naive_solver.
  - destruct Hinv as ((l2 & Hl) & Hs & Hf & Hfs & Hsb & Hrb & Hcb & Hab).
    unfold held_up.
    rewrite transfers_sent_complete, requests_complete, !obj_complete.
    rewrite fut_complete_done by (by rewrite Hfs).
    split_and!; try done. by exists l2.
  - done.
Qed.

(** X7. Once the receive handle of a [SENT] transfer [a] of
    [transfers_sent] has failed, no action of any run collects a transfer
    that is not before [a] in the list: [a] stays [SENT], and every [READY]
    or [SENT] transfer [b] that is not before it stays [READY] or [SENT],
    keeps its result, and gets neither commit nor abort, whatever its own
    receive handle holds. *)
Theorem failed_receive_holds_up_later_transfers
    (acts : list action) (w : Interledger) (l1 l2 : list addr)
    (a b : addr) (f : fid) (e : exn) :
  transfers_sent w = l1 ++ a :: l2 →
  state (obj w a) = SENT → future (obj w a) = Some f → fut w f = FFailed e →
  b ∉ l1 → state (obj w b) = READY ∨ state (obj w b) = SENT →
  ReqCommit b ∉ requests w → ReqAbort b ∉ requests w →
  state (obj (run_actions acts w) a) = SENT
  ∧ (state (obj (run_actions acts w) b) = READY
     ∨ state (obj (run_actions acts w) b) = SENT)
  ∧ result (obj (run_actions acts w) b) = result (obj w b)
  ∧ (ReqCommit b ∉ requests (run_actions acts w))
  ∧ (ReqAbort b ∉ requests (run_actions acts w)).
Proof.
  intros Hl Hs Hf Hfs Hb Hsb Hcb Hab.
  assert (Hrun : ∀ v w0, held_up l1 a f e b v w0 →
                         held_up l1 a f e b v (run_actions acts w0)).
  { intros v. induction acts as [|act acts IH]; intros w0 Hinv; [done|].
    rewrite run_actions_cons. by apply IH, held_up_exec. }
  assert (held_up l1 a f e b (result (obj w b)) (run_actions acts w)) as Hinv.
  { apply Hrun. split_and!; try done. by exists l2. }
  by destruct Hinv as (_ & ? & _ & _ & ? & ? & ? & ?).
Qed.

Lemma failed_receive_holds_up_later_transfers_witness :
  fut first_failed 1%nat = FDone (VBool true)
  ∧ state (obj (run_actions [ActResult; ActProcess; ActResult] first_failed) 1%nat)
    = SENT.
Proof.
  split; [reflexivity|].
  destruct (failed_receive_holds_up_later_transfers
              [ActResult; ActProcess; ActResult] first_failed [] [1%nat]
              0%nat 1%nat 0%nat (AdapterError "receive failed"))
    as (_ & [Hst|Hst] & _).
  - vm_compute. reflexivity.
  - reflexivity.
  - reflexivity.
  - reflexivity.
  - apply not_elem_of_nil.
  - right. reflexivity.
  - vm_compute. intros H. by repeat (apply elem_of_cons in H as [?|H]; [done|]);
      apply elem_of_nil in H.
  - vm_compute. intros H. by repeat (apply elem_of_cons in H as [?|H]; [done|]);
      apply elem_of_nil in H.
  - vm_compute in Hst. discriminate.
  - exact Hst.
Defined.

(** ** A finished handle ends every later wait *)

(** X8. Once a transfer of [transfers_sent] has a receive handle that is
    done, [transfer_result] never waits again: at any later point of any
    run it returns or raises at once, whether or not a [SENT] transfer has
    completed.  In a run from the plain constructor this is so from the
    first transfer that is [COMPLETED] on. *)
Theorem transfer_result_stops_waiting (acts : list action) (w : Interledger) :
  (∀ a f, a ∈ transfers_sent w → state (obj w a) ≠ READY →
     future (obj w a) = Some f → done (fut w f) = true →
     transfer_result (run_actions acts w) ≠ Blocked)
  ∧ (∀ acts0 h fs a, w = run_actions acts0 (Interledger_init h fs) →
       a ∈ transfers_sent w →
       state (obj w a) = COMPLETED ∨ state (obj w a) = PROCESSED →
       transfer_result (run_actions acts w) ≠ Blocked).
Proof.
  assert (Hgen : ∀ a f, a ∈ transfers_sent w → state (obj w a) ≠ READY →
     future (obj w a) = Some f → done (fut w f) = true →
     transfer_result (run_actions acts w) ≠ Blocked).
  { intros a f Ha Hnr Hf Hd.
    destruct (run_actions_spec acts w) as (_ & (d & Hsent & _) & _ & Hfut & _ & Hdone).
    unfold transfer_result, transfer_result_resume.
    destruct (wait_first_completed _ _) eqn:Hwait; [done| |].
    - apply wait_blocked_iff in Hwait as (_ & _ & Hall).
      specialize (Hall f). rewrite Hdone, Hd in Hall by done.
      intros _. assert (true = false); [|done]. apply Hall.
      apply elem_of_futures. exists a. split; [rewrite Hsent; set_solver|].
      by rewrite Hfut.
    - apply collect_loop_not_blocked. }
  split; [exact Hgen|].
  intros acts0 h fs a -> Ha Hst.
  assert (dispatched_inv (run_actions acts0 (Interledger_init h fs))) as Hdi.
  { apply dispatched_inv_run. by intros x ?%elem_of_nil. }
  assert (handles_done (run_actions acts0 (Interledger_init h fs))) as Hhd.
  { apply handles_done_run. intros x f Hx. by apply elem_of_nil in Hx. }
  destruct (Hdi a Ha) as [[f Hf] _].
  apply (Hgen a f); try done.
  - destruct Hst as [-> | ->]; discriminate.
  - apply (Hhd a f); try done; destruct Hst as [-> | ->]; discriminate.
Qed.

Lemma transfer_result_stops_waiting_witness :
  transfer_result (run_actions [ActSend; ActProcess] one_processed) ≠ Blocked.
Proof.
  destruct (transfer_result_stops_waiting [ActSend; ActProcess] one_processed)
    as [Hgen _].
  apply (Hgen 1%nat 1%nat).
  - vm_compute. apply list_elem_of_further, list_elem_of_here.
  - vm_compute. discriminate.
  - reflexivity.
  - reflexivity.
Defined.

Lemma missing_handle_raises_witness :
  ∃ e, transfer_result (run_actions [ActProcess; ActSend] recovered)
       = Raised e (run_actions [ActProcess; ActSend] recovered).
Proof.
  apply (missing_handle_raises [ActProcess; ActSend] recovered 0%nat).
  - vm_compute. apply list_elem_of_here.
  - vm_compute. discriminate.
  - reflexivity.
Defined.

(** * How the stage operations compose *)

Lemma send_loop_no_ready (l : list addr) (w : Interledger) :
  (∀ a, a ∈ l → state (obj w a) ≠ READY) → foldl send_step w l = w.
Proof.
  induction l as [|a l IH]; intros Hall; [done|].
  simpl. rewrite send_step_other by (apply Hall; set_solver).
  apply IH. intros x Hx. apply Hall. set_solver.
Qed.

Lemma process_loop_no_completed (l : list addr) (w : Interledger) :
  (∀ a, a ∈ l → state (obj w a) ≠ COMPLETED) → foldl process_step w l = w.
Proof.
  induction l as [|a l IH]; intros Hall; [done|].
  simpl. rewrite process_step_other by (apply Hall; set_solver).
  apply IH. intros x Hx. apply Hall. set_solver.
Qed.

Lemma collect_loop_nothing_done (l : list addr) (w : Interledger) :
  (∀ a, a ∈ l → state (obj w a) = SENT →
        ∃ f, future (obj w a) = Some f ∧ fut w f = FPending) →
  collect_loop l w = Returned () w.
Proof.
  induction l as [|a l IH]; intros Hall; [done|].
  destruct (decide (state (obj w a) = SENT)) as [Hs|Hs].
  - rewrite collect_loop_sent by done.
    destruct (Hall a) as (f & -> & ->); [set_solver|done|].
    apply IH. intros x Hx. apply Hall. set_solver.
  - rewrite collect_loop_skip by done.
    apply IH. intros x Hx. apply Hall. set_solver.
Qed.

(** X9. Each of the three stages run twice in a row does nothing the
    second time: a second [send_transfer] dispatches nothing, a second
    [process_result] finalizes nothing, and a [transfer_result] that
    follows one that returned returns the same engine. *)
Theorem stages_do_nothing_twice (w : Interledger) :
  send_transfer (send_transfer w) = send_transfer w
  ∧ process_result (process_result w) = process_result w
  ∧ (∀ w', transfer_result w = Returned () w' →
           transfer_result w' = Returned () w').
Proof.
  split_and!.
  - unfold send_transfer at 1.
    destruct (send_loop_frame (transfers w) w) as (Htr & _).
    fold (send_transfer w) in Htr. rewrite Htr.
    apply send_loop_no_ready. intros a Ha. unfold send_transfer.
    destruct (send_loop_spec (transfers w) w)
      as (d & _ & Hd & _ & _ & Hobj & Hframe & _).
    destruct (decide (a ∈ d)) as [Hin|Hin].
    + destruct (Hobj a Hin) as (f & -> & _). discriminate.
    + rewrite Hframe by done. intros Hr. apply Hin, Hd. done.
  - unfold process_result at 1.
    destruct (process_loop_spec (transfers_sent w) w)
      as (d & _ & Hd & _ & _ & _ & _ & Hobj & Hframe & _ & _ & Hs & _).
    fold (process_result w) in Hobj, Hframe, Hs. rewrite Hs.
    apply process_loop_no_completed. intros a Ha.
    destruct (decide (a ∈ d)) as [Hin|Hin].
    + rewrite (Hobj a Hin). discriminate.
    + rewrite Hframe by done. intros Hc. apply Hin, Hd. done.
  - intros w' Hret. unfold transfer_result, transfer_result_resume in *.
    destruct (wait_first_completed w (futures w)) eqn:Hwait; try discriminate.
    pose proof (collect_loop_ends (transfers_sent w) w) as Hends.
    rewrite Hret in Hends. simpl in Hends.
    destruct Hends as (Hfu & _ & _ & Hsent & _ & _ & _ & _ & Hobj).
    assert (Hfut : ∀ a, future (obj w' a) = future (obj w a)).
    { intros a. by destruct (Hobj a) as [->|(_ & _ & f & v & _ & _ & ->)]. }
    assert (futures w' = futures w) as ->.
    { unfold futures. rewrite Hsent. apply list_fmap_ext. intros _ a _. apply Hfut. }
    assert (wait_first_completed w' (futures w) = WaitReady) as ->.
    { apply wait_ready_iff. apply wait_ready_iff in Hwait as (? & ? & f & ? & Hd).
      split_and!; try done. exists f. split; [done|]. unfold fut. by rewrite Hfu. }
    rewrite Hsent. apply collect_loop_nothing_done. intros a Ha Hst.
    assert (state (obj w a) = SENT ∧ obj w' a = obj w a) as [Hst0 Ho].
    { destruct (Hobj a) as [Ho|(_ & _ & f & v & _ & _ & Ho)].
      - by rewrite Ho in Hst.
      - rewrite Ho in Hst. discriminate. }
    destruct (collect_loop_returned _ _ _ Hret a Ha Hst0) as (f & Hf & Hm).
    exists f. rewrite Ho. split; [done|]. unfold fut in *. rewrite Hfu.
    destruct (futs w !!! f) as [|v|e] eqn:Hfs; [done| |done].
    rewrite Hm in Hst. discriminate.
Qed.

Lemma stages_do_nothing_twice_witness :
  transfer_result (after (transfer_result one_done) one_done)
  = Returned () (after (transfer_result one_done) one_done).
Proof.
  destruct (stages_do_nothing_twice one_done) as (_ & _ & Hcollect).
  apply Hcollect. vm_compute. reflexivity.
Defined.

(** X10. The pool grows in the order of the deliveries: two polls ingested
    one after the other leave the engine as a single poll delivering both
    lists would, and an empty delivery in between changes nothing. *)
Theorem receive_transfer_appends (ts1 ts2 : list addr) (w : Interledger) :
  after (receive_transfer (PollDeliver ts2)
           (after (receive_transfer (PollDeliver ts1) w) w))
        (after (receive_transfer (PollDeliver ts1) w) w)
  = after (receive_transfer (PollDeliver (ts1 ++ ts2)) w) w
  ∧ transfers (after (receive_transfer (PollDeliver (ts1 ++ ts2)) w) w)
    = transfers w ++ ts1 ++ ts2.
Proof.
  unfold receive_transfer. simpl after.
  destruct ts1 as [|a1 ts1]; simpl app.
  - rewrite (bool_decide_eq_false_2 (0 < length [])%nat) by (simpl; lia).
    split; [done|]. case_bool_decide as Hlen; [done|].
    destruct ts2; [by rewrite app_nil_r|simpl in Hlen; lia].
  - rewrite (bool_decide_eq_true_2 (0 < length (a1 :: ts1))%nat) by (simpl; lia).
    rewrite (bool_decide_eq_true_2 (0 < length (a1 :: ts1 ++ ts2))%nat)
      by (simpl; lia).
    split; [|done].
    case_bool_decide as Hlen.
    + unfold extend_transfers. simpl. by rewrite <- app_assoc.
    + destruct ts2; [|simpl in Hlen; lia].
      unfold extend_transfers. simpl. by rewrite app_nil_r.
Qed.

(** * Further properties of the state-aware constructor *)

Lemma common_ids_disjoint (l1 l2 : list value) :
  (∀ o i, o ∈ l1 → i ∈ l2 → py_key o ≠ py_key i) → common_ids l1 l2 = [].
Proof.
  intros Hd. apply nil_length_inv.
  destruct (common_ids_spec l1 l2) as (_ & _ & _ & ->).
  apply size_empty_iff, elem_of_equiv_empty.
  intros k [(o & Ho & Hok)%elem_of_py_keys (i & Hi & Hik)%elem_of_py_keys]
    %elem_of_intersection.
  apply (Hd o i Ho Hi). congruence.
Qed.


(** X11. When none of the assets the Initiator reports as [TRANSFER_OUT] is
    reported by the Responder as [NOT_HERE] or as [HERE] (no asset at all
    is [TRANSFER_OUT], for one), the state-aware constructor builds exactly
    the engine of the plain constructor, in the same store.  Identifiers
    are compared the way the sets of the code compare them, with [==]:
    none of the one ledger has the key of one of the other. *)
Theorem nothing_to_recover (ini : StateInitiator) (res : StateResponder)
    (h : gmap addr Transfer) (fs : gmap fid fut_state) :
  (∀ o i, o ∈ initiator_query_by_state ini TRANSFER_OUT →
          i ∈ responder_query_by_state res NOT_HERE
          ∨ i ∈ responder_query_by_state res HERE →
          py_key o ≠ py_key i) →
  StateInterledger_init ini res h fs = Interledger_init h fs.
Proof.
  intros Hno.
  unfold StateInterledger_init, restore_pending_transfers_ready,
    restore_pending_transfers_sent.
  rewrite !common_ids_disjoint; [done| |]; intros o i Ho Hi; apply Hno; auto.
Qed.

Lemma nothing_to_recover_witness :
  StateInterledger_init (ledger_initiator [VInt 2])
    (ledger_responder [VBool true] [VStr "2"]) two_transfers ∅
  = Interledger_init two_transfers ∅.
Proof.
  apply nothing_to_recover. simpl. intros o i Ho Hi.
  apply list_elem_of_singleton in Ho as ->.
  destruct Hi as [Hi|Hi]; apply list_elem_of_singleton in Hi as ->; discriminate.
Defined.



(** X13. The state-aware constructor creates new objects only, all
    distinct, so that no transfer is both in the pool and in
    [transfers_sent], and leaves every object of the store as it was. *)
Theorem recovery_creates_new_objects (ini : StateInitiator)
    (res : StateResponder) (h : gmap addr Transfer) (fs : gmap fid fut_state) :
  NoDup (transfers (StateInterledger_init ini res h fs)
         ++ transfers_sent (StateInterledger_init ini res h fs))
  ∧ (∀ a, a ∈ transfers (StateInterledger_init ini res h fs) →
          a ∉ transfers_sent (StateInterledger_init ini res h fs))
  ∧ (∀ a, a ∈ transfers (StateInterledger_init ini res h fs)
              ++ transfers_sent (StateInterledger_init ini res h fs) →
          a ∉ dom h)
  ∧ (∀ a, a ∈ dom h → heap (StateInterledger_init ini res h fs) !! a = h !! a)
  ∧ futs (StateInterledger_init ini res h fs) = fs.
Proof.
  destruct (StateInterledger_init_spec ini res h fs)
    as (Hnd & Hnew & _ & _ & Hframe & _ & Hf & _).
  simpl in *. split_and!; try done.
  - apply NoDup_app in Hnd as (_ & Hd & _). exact Hd.
  - intros a Ha. apply Hframe. intros Hin. by apply Hnew in Hin.
Qed.

Lemma recovery_creates_new_objects_witness :
  heap (StateInterledger_init (ledger_initiator [VStr "X"])
          (ledger_responder [VStr "X"] []) two_transfers ∅) !! 1%nat
  = two_transfers !! 1%nat.
Proof.
  destruct (recovery_creates_new_objects (ledger_initiator [VStr "X"])
              (ledger_responder [VStr "X"] []) two_transfers ∅)
    as (_ & _ & _ & Hkeep & _).
  apply Hkeep. vm_compute. set_solver.
Defined.

(** * [Interledger.run] *)

(** The happy path through [run]: one transfer is received, dispatched,
    collected and committed, and the loop ends after [stop]. *)
Example happy_run :
  point (run happy_schedule (Interledger_init two_transfers ∅)) = RunReturned
  ∧ requests (engine (run happy_schedule (Interledger_init two_transfers ∅)))
    = [ReqReceive 0 0; ReqCommit 0]
  ∧ pending (engine (run happy_schedule (Interledger_init two_transfers ∅))) = 0
  ∧ state (obj (engine (run happy_schedule (Interledger_init two_transfers ∅)))
             0%nat) = PROCESSED.
Proof. vm_compute. done. Qed.

Lemma engine_loop_head st : engine (loop_head st) = engine st.
Proof.
  unfold loop_head. destruct (keep_running (engine st)); [|done].
  by case_bool_decide.
Qed.

Lemma engine_step_run st : engine (step EvRun st) = engine st.
Proof.
  simpl. destruct (point st) as [r|r t| | | |]; try done.
  - by destruct (receives st !! r) as [[| |]|].
  - by destruct (receive_done st r || result_done st t).
  - apply engine_loop_head.
Qed.

(** Every event is a run of actions of the engine (of none, of one, or of
    [send_transfer] followed by [process_result]). *)
Lemma step_engine (ev : event) (st : run_state) :
  ∃ acts, engine (step ev st) = run_actions acts (engine st).
Proof.
  destruct ev as [r p|t|f s| | |]; simpl.
  - destruct (receives st !! r) as [[| |]|]; try by exists [].
    by exists [ActReceive p].
  - destruct (results st !! t) as [[fs [| |]]|]; try by exists [].
    exists [ActResume fs]. simpl.
    by destruct (transfer_result_resume fs (engine st)).
  - by exists [ActComplete f s].
  - by exists [ActStop].
  - destruct (point st); try by exists [].
    by exists [ActSend; ActProcess].
  - exists []. destruct (point st) as [r|r t| | | |]; try done.
    + by destruct (receives st !! r) as [[| |]|].
    + by destruct (receive_done st r || result_done st t).
    + apply engine_loop_head.
Qed.

Lemma steps_engine (sched : list event) (st : run_state) :
  ∃ acts, engine (steps sched st) = run_actions acts (engine st).
Proof.
  revert st. induction sched as [|ev sched IH]; intros st; [by exists []|].
  destruct (step_engine ev st) as (acts1 & H1).
  destruct (IH (step ev st)) as (acts2 & H2).
  exists (acts1 ++ acts2). unfold steps in *. simpl. rewrite H2, H1.
  unfold run_actions. by rewrite foldl_app.
Qed.

Lemma resume_frame (fs : list (option fid)) (w : Interledger) :
  pending (after (transfer_result_resume fs w) w) = pending w
  ∧ keep_running (after (transfer_result_resume fs w) w) = keep_running w.
Proof.
  unfold transfer_result_resume.
  destruct (wait_first_completed w fs); simpl after; [done|done|].
  apply ends_in_after. eapply ends_in_impl; [|apply collect_loop_ends]. simpl.
  by intros w' (_ & _ & _ & _ & ? & ? & _).
Qed.

Lemma receive_frame (p : poll_result) (w : Interledger) :
  pending (after (receive_transfer p w) w) = pending w
  ∧ keep_running (after (receive_transfer p w) w) = keep_running w.
Proof. destruct p; simpl; [done|]. by case_bool_decide. Qed.

Lemma complete_frame f s (w : Interledger) :
  pending (complete f s w) = pending w
  ∧ keep_running (complete f s w) = keep_running w.
Proof. unfold complete. by case_bool_decide. Qed.

Lemma keep_running_send_process (w : Interledger) :
  keep_running (process_result (send_transfer w)) = keep_running w.
Proof.
  unfold process_result.
  destruct (process_loop_spec (transfers_sent (send_transfer w)) (send_transfer w))
    as (d & _ & _ & _ & _ & _ & _ & _ & _ & _ & _ & _ & ->).
  unfold send_transfer. by destruct (send_loop_frame (transfers w) w) as (_ & -> & _).
Qed.

(** Only the tasks [send] and [process] change [pending], and only [stop]
    changes [keep_running]. *)
Lemma step_frame (ev : event) (st : run_state) :
  (ev ≠ EvSendProcess → pending (engine (step ev st)) = pending (engine st))
  ∧ (keep_running (engine st) = false →
     keep_running (engine (step ev st)) = false)
  ∧ (ev ≠ EvStop →
     keep_running (engine (step ev st)) = keep_running (engine st)).
Proof.
  destruct ev as [r p|t|f s| | |]; [simpl..|].
  - destruct (receives st !! r) as [[| |]|]; try done. simpl.
    destruct (receive_frame p (engine st)) as [-> ->]. done.
  - destruct (results st !! t) as [[fs [| |]]|]; try done.
    destruct (resume_frame fs (engine st)) as [Hp Hk].
    destruct (transfer_result_resume fs (engine st)); simpl in *;
      rewrite ?Hp, ?Hk; done.
  - destruct (complete_frame f s (engine st)) as [-> ->]. done.
  - done.
  - destruct (point st); try done. simpl.
    rewrite keep_running_send_process. done.
  - by rewrite engine_step_run.
Qed.

Lemma pending_inv_step (ev : event) (st : run_state) :
  pending_inv (engine st) → pending_inv (engine (step ev st)).
Proof.
  intros Hinv. destruct (step_engine ev st) as (acts & ->).
  by apply pending_inv_run.
Qed.

Lemma futures_nonempty (w : Interledger) :
  pending_inv w → pending w ≠ 0 → futures w ≠ [].
Proof.
  intros Hinv Hp Hnil. apply Hp. rewrite Hinv.
  unfold futures in Hnil. apply fmap_nil_inv in Hnil.
  unfold active. rewrite Hnil. done.
Qed.

Lemma run_inv_step (ev : event) (st : run_state) :
  run_inv st → run_inv (step ev st).
Proof.
  intros (Hpi & Hres & Hpt).
  destruct (step_frame ev st) as (Hpend & Hkeep & _).
  split; [by apply pending_inv_step|].
  destruct ev as [r p|t|f s| | |]; simpl in *.
  - destruct (receives st !! r) as [[| |]|] eqn:Hr;
      try (split; [exact Hres|exact Hpt]).
    simpl. split; [exact Hres|].
    destruct (point st) as [r0|r0 t0| | | |e]; try done.
    + by (etrans; [apply Hpend|]).
    + by apply Hkeep.
    + destruct Hpt as [Hp (r' & Hr')]. split; [by (etrans; [apply Hpend|])|].
      exists r'. rewrite list_lookup_insert_ne; [done|]. intros ->. congruence.
  - destruct (results st !! t) as [[fs [| |]]|] eqn:Ht;
      try (split; [exact Hres|exact Hpt]).
    assert (Hfs : fs ≠ []) by apply (Hres _ _ Ht).
    assert (Hins : ∀ s t' task,
              <[t := {| awaited := fs; status := s |}]> (results st) !! t'
              = Some task → awaited task ≠ []).
    { intros s t' task. destruct (decide (t = t')) as [->|Hne].
      - rewrite list_lookup_insert_eq by (by eapply lookup_lt_Some).
        by intros [= <-].
      - rewrite list_lookup_insert_ne by done. apply Hres. }
    destruct (transfer_result_resume fs (engine st)) as [[] w'|e w'|] eqn:Hout;
      simpl in *; [| |split; [exact Hres|exact Hpt]].
    + split; [apply Hins|].
      destruct (point st) as [r0|r0 t0| | | |e]; try done.
      * by (etrans; [apply Hpend|]).
      * by apply Hkeep.
      * destruct Hpt as [Hp Hr']. split; [by (etrans; [apply Hpend|])|done].
    + split; [apply Hins|].
      destruct (point st) as [r0|r0 t0| | | |e0]; try done.
      * by (etrans; [apply Hpend|]).
      * by apply Hkeep.
      * destruct Hpt as [Hp Hr']. split; [by (etrans; [apply Hpend|])|done].
  - split; [exact Hres|].
    destruct (point st) as [r0|r0 t0| | | |e]; try done.
    + by (etrans; [apply Hpend|]).
    + by apply Hkeep.
    + destruct Hpt as [Hp Hr']. split; [by (etrans; [apply Hpend|])|done].
  - split; [exact Hres|].
    destruct (point st) as [r0|r0 t0| | | |e]; try done.
  - destruct (point st) as [r0|r0 t0| | | |e] eqn:Hpoint;
      try (rewrite Hpoint; split; [exact Hres|exact Hpt]).
    simpl. split; [exact Hres|done].
  - destruct (point st) as [r|r t| | | |e] eqn:Hpoint.
    + destruct (receives st !! r) as [[|n|e]|] eqn:Hr; simpl;
        rewrite ?Hpoint; try (split; [exact Hres|exact Hpt]).
      * split; [exact Hres|done].
      * split; [exact Hres|]. split; [done|]. by exists r.
    + destruct (receive_done st r || result_done st t); simpl; rewrite ?Hpoint;
        (split; [exact Hres|done]).
    + rewrite Hpoint. split; [exact Hres|done].
    + unfold loop_head. destruct (keep_running (engine st)) eqn:Hk.
      * case_bool_decide as Hp0; simpl.
        -- split; [exact Hres|done].
        -- split; [|done]. intros t task.
           rewrite lookup_app_Some. intros [Ht|[_ Ht]]; [by eapply Hres|].
           apply list_lookup_singleton_Some in Ht as [_ <-]. simpl.
           by apply futures_nonempty.
      * simpl. split; [exact Hres|done].
    + rewrite Hpoint. split; [exact Hres|done].
    + rewrite Hpoint. split; [exact Hres|done].
Qed.

Lemma run_inv_steps (sched : list event) (st : run_state) :
  run_inv st → run_inv (steps sched st).
Proof.
  revert st. induction sched as [|ev sched IH]; intros st Hinv; [done|].
  apply (IH (step ev st)). by apply run_inv_step.
Qed.

Lemma run_inv_start (w : Interledger) : pending_inv w → run_inv (run_start w).
Proof.
  intros Hinv. unfold run_start, loop_head. simpl.
  destruct (keep_running w) eqn:Hk.
  - case_bool_decide as Hp0; simpl.
    + split_and!; try done.
    + split_and!; try done. intros t task Ht.
      apply list_lookup_singleton_Some in Ht as [_ <-]. simpl.
      by apply futures_nonempty.
  - split_and!; try done.
Qed.

Lemma run_inv_run (sched : list event) (w : Interledger) :
  pending_inv w → run_inv (run sched w).
Proof. intros Hinv. by apply run_inv_steps, run_inv_start. Qed.

(** X14. Whatever the schedule, the engine [run] has reached is the one a
    sequence of atomic actions of the stages reaches from the engine [run]
    was called on; so every invariant of runs of actions holds at every
    point of [run], and in particular, on an engine built by either
    constructor, [pending] is at every point the number of transfers of
    [transfers_sent] that are [SENT] or [COMPLETED]. *)
Theorem run_is_a_run_of_actions (sched : list event) (w : Interledger) :
  (∃ acts, engine (run sched w) = run_actions acts w)
  ∧ (constructed w →
     pending (engine (run sched w))
     = Z.of_nat (size (active (engine (run sched w))))).
Proof.
  assert (Hsim : ∃ acts, engine (run sched w) = run_actions acts w).
  { unfold run. destruct (steps_engine sched (run_start w)) as (acts & Hacts).
    exists acts. rewrite Hacts. unfold run_start. by rewrite engine_loop_head. }
  split; [exact Hsim|].
  intros Hc. destruct Hsim as (acts & ->).
  apply pending_inv_run. destruct Hc.
  - apply pending_inv_init.
  - apply pending_inv_state_init.
Qed.

Lemma run_is_a_run_of_actions_witness :
  pending (engine (run happy_schedule (Interledger_init two_transfers ∅)))
  = Z.of_nat
      (size (active (engine (run happy_schedule (Interledger_init two_transfers ∅))))).
Proof.
  apply (run_is_a_run_of_actions happy_schedule (Interledger_init two_transfers ∅)).
  apply constructed_plain.
Defined.

(** X15. [run] raises only an exception raised by the poll of the
    Initiator, and only when it waited for the poll alone, that is with
    [pending] 0.  While transfers are pending, [run] waits on
    [asyncio.wait], which does not raise: a poll that raises there is not
    propagated, and the loop goes on with [send_transfer] and
    [process_result]. *)
Theorem run_raises_only_when_idle (sched : list event) (w : Interledger) (e : exn) :
  pending_inv w →
  (point (run sched w) = RunRaised e →
     pending (engine (run sched w)) = 0
     ∧ ∃ r, receives (run sched w) !! r = Some (RecvRaised e))
  ∧ (∀ r, point (run sched w) = AwaitReceive r →
          receives (run sched w) !! r = Some RecvWaiting →
          pending (engine (run sched w)) = 0
          ∧ point (step EvRun (step (EvPoll r (PollRaise e)) (run sched w)))
            = RunRaised e)
  ∧ (∀ r t, point (run sched w) = AwaitEither r t →
            receives (run sched w) !! r = Some RecvWaiting →
            point (step EvRun (step (EvPoll r (PollRaise e)) (run sched w)))
            = AwaitSend).
Proof.
  intros Hinv. destruct (run_inv_run sched w Hinv) as (_ & _ & Hpt).
  split_and!.
  - intros Hp. by rewrite Hp in Hpt.
  - intros r Hp Hr. rewrite Hp in Hpt. split; [done|].
    simpl. rewrite Hr. simpl. rewrite Hp.
    rewrite list_lookup_insert_eq by (by eapply lookup_lt_Some). done.
  - intros r t Hp Hr. simpl. rewrite Hr. simpl. rewrite Hp.
    unfold receive_done. simpl.
    rewrite list_lookup_insert_eq by (by eapply lookup_lt_Some). done.
Qed.

Lemma run_raises_only_when_idle_witness :
  point (step EvRun
           (step (EvPoll 0%nat (PollRaise (AdapterError "poll failed")))
              (run [] (Interledger_init two_transfers ∅))))
  = RunRaised (AdapterError "poll failed")
  ∧ point (step EvRun
             (step (EvPoll 1%nat (PollRaise (AdapterError "poll failed")))
                (run (take 4 happy_schedule) (Interledger_init two_transfers ∅))))
    = AwaitSend.
Proof.
  split.
  - destruct (run_raises_only_when_idle [] (Interledger_init two_transfers ∅)
                (AdapterError "poll failed")) as (_ & Hidle & _).
    { apply pending_inv_init. }
    destruct (Hidle 0%nat) as [_ Hp]; [reflexivity|reflexivity|exact Hp].
  - destruct (run_raises_only_when_idle (take 4 happy_schedule)
                (Interledger_init two_transfers ∅)
                (AdapterError "poll failed")) as (_ & _ & Hbusy).
    { apply pending_inv_init. }
    apply (Hbusy 1%nat 0%nat); reflexivity.
Defined.

(** The lists of futures the tasks [result] were started on have a
    property that the list of futures of the engine has whenever a task is
    started. *)
Lemma results_step (Q : list (option fid) → Prop) (ev : event) (st : run_state) :
  (point st = Resuming → keep_running (engine st) = true →
   pending (engine st) ≠ 0 → Q (futures (engine st))) →
  (∀ t task, results st !! t = Some task → Q (awaited task)) →
  ∀ t task, results (step ev st) !! t = Some task → Q (awaited task).
Proof.
  intros Hnew Hres.
  destruct ev as [r p|t0|f s| | |]; simpl.
  - by destruct (receives st !! r) as [[| |]|].
  - destruct (results st !! t0) as [[fs [| |]]|] eqn:Ht; try done.
    assert (Hins : ∀ s t' task,
              <[t0 := {| awaited := fs; status := s |}]> (results st) !! t'
              = Some task → Q (awaited task)).
    { intros s t' task. destruct (decide (t0 = t')) as [->|Hne].
      - rewrite list_lookup_insert_eq by (by eapply lookup_lt_Some).
        intros [= <-]. apply (Hres _ _ Ht).
      - rewrite list_lookup_insert_ne by done. apply Hres. }
    destruct (transfer_result_resume fs (engine st)); simpl; try done;
      apply Hins.
  - done.
  - done.
  - by destruct (point st).
  - destruct (point st) as [r|r t0| | | |] eqn:Hp; try done.
    + by destruct (receives st !! r) as [[| |]|].
    + by destruct (receive_done st r || result_done st t0).
    + unfold loop_head. destruct (keep_running (engine st)) eqn:Hk; [|done].
      case_bool_decide as Hp0; [done|]. simpl. intros t task.
      rewrite lookup_app_Some. intros [Ht|[_ Ht]]; [by eapply Hres|].
      apply list_lookup_singleton_Some in Ht as [_ <-]. simpl. by apply Hnew.
Qed.

Lemma futures_have_no_None (w : Interledger) :
  dispatched_inv w → None ∉ futures w.
Proof.
  intros Hinv (a & Ha & Hf)%elem_of_futures.
  destruct (Hinv a Ha) as [[f Hf'] _]. congruence.
Qed.

Lemma no_None_steps (sched : list event) (st : run_state) :
  dispatched_inv (engine st) →
  (∀ t task, results st !! t = Some task → None ∉ awaited task) →
  ∀ t task, results (steps sched st) !! t = Some task → None ∉ awaited task.
Proof.
  revert st. induction sched as [|ev sched IH]; intros st Hdi Hres; [done|].
  apply (IH (step ev st)).
  - destruct (step_engine ev st) as (acts & ->). by apply dispatched_inv_run.
  - apply (results_step (λ l, None ∉ l)); [|done].
    intros _ _ _. by apply futures_have_no_None.
Qed.

(** X16. [run] never calls [transfer_result] with [transfers_sent] empty:
    on an engine whose [pending] counts the transfers in flight, the test
    of [pending] keeps [asyncio.wait] from the empty list.  On an engine
    built by the plain constructor the list of futures has no [None]
    either, so the wait of a task [result] never raises. *)
Theorem result_task_awaits_handles (sched : list event) (w : Interledger) :
  (pending_inv w →
   ∀ t task, results (run sched w) !! t = Some task → awaited task ≠ [])
  ∧ (∀ h fs, w = Interledger_init h fs →
     ∀ t task, results (run sched w) !! t = Some task →
       awaited task ≠ [] ∧ (None ∉ awaited task)
       ∧ ∀ w' e, wait_first_completed w' (awaited task) ≠ WaitRaise e).
Proof.
  assert (Hempty : pending_inv w →
    ∀ t task, results (run sched w) !! t = Some task → awaited task ≠ []).
  { intros Hinv. by destruct (run_inv_run sched w Hinv) as (_ & ? & _). }
  split; [exact Hempty|].
  intros h fs -> t task Ht.
  assert (Hnone : None ∉ awaited task).
  { revert t task Ht. unfold run. apply no_None_steps.
    - by intros a ?%elem_of_nil.
    - intros t task. unfold run_start, loop_head. simpl.
      intros Ht. by rewrite lookup_nil in Ht. }
  assert (Hne : awaited task ≠ []).
  { eapply Hempty; [apply pending_inv_init|done]. }
  split_and!; try done.
  intros w' e [[? _]|[? _]]%wait_raise_iff; done.
Qed.

Lemma result_task_awaits_handles_witness :
  awaited {| awaited := [Some 0%nat]; status := ResReturned |} ≠ [].
Proof.
  destruct (result_task_awaits_handles happy_schedule
              (Interledger_init two_transfers ∅)) as [Hempty _].
  apply (Hempty (pending_inv_init two_transfers ∅) 0%nat).
  vm_compute. reflexivity.
Defined.

Lemma step_lists (ev : event) (st : run_state) :
  keep_running (engine st) = false →
  length (receives (step ev st)) = length (receives st)
  ∧ length (results (step ev st)) = length (results st).
Proof.
  intros Hk. destruct ev as [r p|t|f s| | |]; simpl.
  - destruct (receives st !! r) as [[| |]|]; try done. simpl.
    by rewrite length_insert.
  - destruct (results st !! t) as [[fs [| |]]|]; try done.
    destruct (transfer_result_resume fs (engine st)); simpl; try done;
      by rewrite length_insert.
  - done.
  - done.
  - by destruct (point st).
  - destruct (point st) as [r|r t| | | |]; try done.
    + by destruct (receives st !! r) as [[| |]|].
    + by destruct (receive_done st r || result_done st t).
    + unfold loop_head. by rewrite Hk.
Qed.

Lemma step_returned (ev : event) (st : run_state) :
  (point st = RunReturned → keep_running (engine st) = false) →
  point (step ev st) = RunReturned → keep_running (engine (step ev st)) = false.
Proof.
  intros Hinv. destruct (step_frame ev st) as (_ & Hkeep & _).
  assert (Hsame : point (step ev st) = point st →
            point (step ev st) = RunReturned →
            keep_running (engine (step ev st)) = false).
  { intros Heq Hp. apply Hkeep, Hinv. by rewrite <- Heq. }
  destruct ev as [r p|t|f s| | |].
  - apply Hsame. simpl. by destruct (receives st !! r) as [[| |]|].
  - apply Hsame. simpl. destruct (results st !! t) as [[fs [| |]]|]; try done.
    by destruct (transfer_result_resume fs (engine st)).
  - by apply Hsame.
  - by apply Hsame.
  - destruct (point st) eqn:Hp; try (apply Hsame; simpl; by rewrite Hp).
    simpl. rewrite Hp. done.
  - rewrite engine_step_run. simpl.
    destruct (point st) as [r|r t| | | |] eqn:Hp; try done.
    + destruct (receives st !! r) as [[| |]|]; simpl; rewrite ?Hp; done.
    + destruct (receive_done st r || result_done st t); simpl; rewrite ?Hp; done.
    + rewrite Hp. done.
    + unfold loop_head. destruct (keep_running (engine st)) eqn:Hk; [|done].
      by case_bool_decide.
    + intros _. by apply Hinv.
    + rewrite Hp. done.
Qed.

(** X17. [stop] ends the loop and nothing else does: [run] returns only
    with [keep_running] false, which no stage ever sets back; once it is
    false [run] starts no new iteration (it creates no further task
    [receive] or [result]), and returns the next time it reaches the head
    of its loop. *)
Theorem stop_ends_the_loop (sched : list event) (st : run_state) :
  ((point st = RunReturned → keep_running (engine st) = false) →
   point (steps sched st) = RunReturned →
   keep_running (engine (steps sched st)) = false)
  ∧ (keep_running (engine st) = false →
     keep_running (engine (steps sched st)) = false
     ∧ length (receives (steps sched st)) = length (receives st)
     ∧ length (results (steps sched st)) = length (results st))
  ∧ (keep_running (engine st) = false → point st = Resuming →
     step EvRun st = set_point RunReturned st)
  ∧ keep_running (engine (step EvStop st)) = false.
Proof.
  split_and!.
  - revert st. induction sched as [|ev sched IH]; intros st Hinv; [done|].
    apply (IH (step ev st)). by apply step_returned.
  - revert st. induction sched as [|ev sched IH]; intros st Hk; [done|].
    destruct (step_frame ev st) as (_ & Hkeep & _).
    destruct (step_lists ev st Hk) as [Hr Ht].
    destruct (IH (step ev st) (Hkeep Hk)) as (? & Hr' & Ht').
    unfold steps in *. simpl. split_and!; [done|by rewrite Hr'|by rewrite Ht'].
  - intros Hk Hp. simpl. rewrite Hp. unfold loop_head. by rewrite Hk.
  - done.
Qed.

Lemma stop_ends_the_loop_witness :
  length (receives (steps [EvPoll 2%nat (PollDeliver [1%nat]); EvRun;
                           EvSendProcess; EvRun; EvRun]
                      (run (take 10 happy_schedule)
                         (Interledger_init two_transfers ∅))))
  = length (receives (run (take 10 happy_schedule)
                        (Interledger_init two_transfers ∅))).
Proof.
  destruct (stop_ends_the_loop
              [EvPoll 2%nat (PollDeliver [1%nat]); EvRun; EvSendProcess; EvRun; EvRun]
              (run (take 10 happy_schedule) (Interledger_init two_transfers ∅)))
    as (_ & Hstop & _).
  destruct Hstop as (_ & Hr & _); [reflexivity|exact Hr].
Defined.

Lemma step_quiet (ev : event) (st : run_state) :
  point st ≠ AwaitSend →
  requests (engine (step ev st)) = requests (engine st)
  ∧ transfers_sent (engine (step ev st)) = transfers_sent (engine st).
Proof.
  intros Hp. destruct ev as [r p|t|f s| | |]; [simpl..|by rewrite engine_step_run].
  - destruct (receives st !! r) as [[| |]|]; try done. simpl.
    destruct p; simpl; [done|]. by case_bool_decide.
  - destruct (results st !! t) as [[fs [| |]]|]; try done.
    pose proof (collect_loop_ends (transfers_sent (engine st)) (engine st)) as He.
    unfold transfer_result_resume.
    destruct (wait_first_completed (engine st) fs); simpl; try done.
    destruct (collect_loop _ _); simpl in *; try done;
      by destruct He as (_ & ? & _ & ? & _).
  - unfold complete. by case_bool_decide.
  - done.
  - by destruct (point st).
Qed.

(** X18. While [run] waits for the poll alone, only the answer to that poll
    lets it go on: whatever else happens ([stop] included, futures
    completing, tasks left by earlier iterations coming to their end),
    [run] stays at [await receive], and the engine issues no call and
    dispatches nothing. *)
Theorem run_waits_for_its_poll (sched : list event) (st : run_state) (r : nat) :
  point st = AwaitReceive r → receives st !! r = Some RecvWaiting →
  (∀ p, EvPoll r p ∉ sched) →
  point (steps sched st) = AwaitReceive r
  ∧ receives (steps sched st) !! r = Some RecvWaiting
  ∧ requests (engine (steps sched st)) = requests (engine st)
  ∧ transfers_sent (engine (steps sched st)) = transfers_sent (engine st)
  ∧ pending (engine (steps sched st)) = pending (engine st).
Proof.
  revert st. induction sched as [|ev sched IH]; intros st Hp Hr Hno; [done|].
  assert (Hstep : point (step ev st) = AwaitReceive r
                  ∧ receives (step ev st) !! r = Some RecvWaiting).
  { destruct ev as [r' p|t|f s| | |]; simpl.
    - destruct (decide (r' = r)) as [->|Hne].
      { destruct (Hno p). apply list_elem_of_here. }
      destruct (receives st !! r') as [[| |]|]; try done. simpl.
      by rewrite list_lookup_insert_ne.
    - destruct (results st !! t) as [[fs [| |]]|]; try done.
      by destruct (transfer_result_resume fs (engine st)).
    - done.
    - done.
    - by rewrite Hp.
    - by rewrite Hp, Hr. }
  destruct Hstep as [Hp' Hr'].
  destruct (IH (step ev st) Hp' Hr') as (? & ? & Hreq & Hsent & Hpend).
  { intros p Hin. apply (Hno p). by apply list_elem_of_further. }
  destruct (step_quiet ev st) as [Hreq1 Hsent1].
  { rewrite Hp. discriminate. }
  destruct (step_frame ev st) as (Hpend1 & _).
  unfold steps in *. simpl. split_and!; try done.
  - by rewrite Hreq, Hreq1.
  - by rewrite Hsent, Hsent1.
  - rewrite Hpend. destruct ev; try (by apply Hpend1).
    simpl. by rewrite Hp.
Qed.

Lemma run_waits_for_its_poll_witness :
  point (steps [EvStop; EvRun; EvFuture 0%nat (FDone (VBool true)); EvRun]
           (run [] (Interledger_init two_transfers ∅)))
  = AwaitReceive 0.
Proof.
  apply (run_waits_for_its_poll
           [EvStop; EvRun; EvFuture 0%nat (FDone (VBool true)); EvRun]
           (run [] (Interledger_init two_transfers ∅)) 0%nat).
  - reflexivity.
  - reflexivity.
  - intros p H. repeat (apply elem_of_cons in H as [H|H]; [discriminate|]).
    by apply elem_of_nil in H.
Defined.
